(** * Sorting strategies of [main.cpp]: a shallow embedding

    The program reads a line of integers, sorts them with
    [BubbleSort::sort] or [QuickSort::sort] and prints the result.
    This file embeds the two sorting routines and the runner of
    [main.cpp] and states the properties of the specification about them.

    Platform assumptions (LP64, two's complement):
    - [int] is 32 bits wide and [size_t] is 64 bits wide.  Arithmetic on
      them is written with its wrap-around ([wrap_int], [wrap_size]), and
      so are the conversions between them ([data.size() - 1] passed as an
      [int], an [int] used as an index).  Signed overflow, which C++
      leaves undefined, gets the two's complement result; nothing proved
      about vectors of at most [INT_MAX] elements depends on it, since no
      [int] operation overflows there;
    - a [std::vector<int>] is a list of integers whose length fits in
      [ptrdiff_t] ([vector_wf]);
    - [operator[]] outside the bounds of the vector is undefined
      behaviour and is modelled by the result [Fault].

    Loops and the recursion of [quicksort] are written with a budget
    (fuel).  Every routine gets the length of the vector as budget; the
    proofs show that it never runs out. *)

From Stdlib Require Import ZArith Lia Ascii String.
From stdpp Require Import base tactics option list list_numbers sorting pretty.

Local Open Scope Z_scope.

(** ** Machine integers *)

Definition INT_MIN : Z := -2147483648.
Definition INT_MAX : Z := 2147483647.
Definition PTRDIFF_MAX : Z := 9223372036854775807.

(** Conversion to [int] (modulo 2^32, signed representative). *)
Definition wrap_int (z : Z) : Z := (z + 2147483648) mod 4294967296 - 2147483648.

(** Conversion to [size_t] (modulo 2^64). *)
Definition wrap_size (z : Z) : Z := z mod 18446744073709551616.

Definition is_int (z : Z) : Prop := INT_MIN <= z <= INT_MAX.

(** ** Results of running a routine *)

Inductive result (A : Type) : Type :=
| Ok (a : A)     (* normal completion *)
| Fault          (* undefined behaviour: element access out of bounds *)
| OutOfFuel.     (* the model's loop or recursion budget is exhausted *)

Arguments Ok {A} a.
Arguments Fault {A}.
Arguments OutOfFuel {A}.

#[export] Instance result_ret : MRet result := fun A a => Ok a.
#[export] Instance result_bind : MBind result := fun A B f m =>
  match m with
  | Ok a => f a
  | Fault => Fault
  | OutOfFuel => OutOfFuel
  end.

(** ** std::vector<int> *)

Abbreviation vec := (list Z).

Definition size (data : vec) : Z := Z.of_nat (length data).

(** Every [std::vector<int>] object satisfies this. *)
Definition vector_wf (data : vec) : Prop := size data <= PTRDIFF_MAX.

(** [data[k]] for a [size_type] index [k]. *)
Definition at_index (data : vec) (k : Z) : result Z :=
  if (0 <=? k) && (k <? size data) then
    match data !! Z.to_nat k with
    | Some x => Ok x
    | None => Fault
    end
  else Fault.

(** [std::swap(data[a], data[b])]. *)
Definition swap (data : vec) (a b : Z) : result vec :=
  x ← at_index data a;
  y ← at_index data b;
  Ok (<[Z.to_nat b := x]> (<[Z.to_nat a := y]> data)).

(** ** BubbleSort (main.cpp, lines 17-28) *)

Module BubbleSort.

(** The loop [for (size_t j = ...; j < data.size() - i - 1; ++j)]
    entered with the current value of [j]. *)
Fixpoint inner_loop (fuel : nat) (data : vec) (i j : Z) : result vec :=
  if j <? wrap_size (wrap_size (size data - i) - 1) then
    match fuel with
    | O => OutOfFuel
    | S fuel' =>
        a ← at_index data j;
        b ← at_index data (wrap_size (j + 1));
        data' ← (if a >? b then swap data j (wrap_size (j + 1)) else Ok data);
        inner_loop fuel' data' i (wrap_size (j + 1))
    end
  else Ok data.

(** The loop [for (size_t i = ...; i < data.size(); ++i)]
    entered with the current value of [i]. *)
Fixpoint outer_loop (fuel : nat) (data : vec) (i : Z) : result vec :=
  if i <? size data then
    match fuel with
    | O => OutOfFuel
    | S fuel' =>
        data' ← inner_loop (length data) data i 0;
        outer_loop fuel' data' (wrap_size (i + 1))
    end
  else Ok data.

Definition sort (data : vec) : result vec :=
  outer_loop (length data) data 0.

End BubbleSort.

(** ** QuickSort (main.cpp, lines 30-56) *)

Module QuickSort.

(** The loop [for (int j = ...; j < high; ++j)] of [partition], entered
    with the current values of [i] and [j]; it returns the vector and
    the final [i].  An [int] used as an index converts to [size_type]
    ([wrap_size]); [++i] and [++j] are [int] additions ([wrap_int]). *)
Fixpoint partition_loop (fuel : nat) (data : vec) (pivot i j high : Z)
  : result (vec * Z) :=
  if j <? high then
    match fuel with
    | O => OutOfFuel
    | S fuel' =>
        x ← at_index data (wrap_size j);
        if x <? pivot then
          let i' := wrap_int (i + 1) in
          data' ← swap data (wrap_size i') (wrap_size j);
          partition_loop fuel' data' pivot i' (wrap_int (j + 1)) high
        else
          partition_loop fuel' data pivot i (wrap_int (j + 1)) high
    end
  else Ok (data, i).

Definition partition (data : vec) (low high : Z) : result (vec * Z) :=
  pivot ← at_index data (wrap_size high);
  '(data1, i) ← partition_loop (length data) data pivot (wrap_int (low - 1)) low high;
  data2 ← swap data1 (wrap_size (wrap_int (i + 1))) (wrap_size high);
  Ok (data2, wrap_int (i + 1)).

Fixpoint quicksort (fuel : nat) (data : vec) (low high : Z) : result vec :=
  if low <? high then
    match fuel with
    | O => OutOfFuel
    | S fuel' =>
        '(data1, pi) ← partition data low high;
        data2 ← quicksort fuel' data1 low (wrap_int (pi - 1));
        quicksort fuel' data2 (wrap_int (pi + 1)) high
    end
  else Ok data.

Definition sort (data : vec) : result vec :=
  quicksort (length data) data 0 (wrap_int (wrap_size (size data - 1))).

End QuickSort.

(** ** BubbleSort with a ghost trace

    The same two loops, recording for every execution of the body of the
    inner loop the index [j], the two elements read and whether
    [std::swap] was called: the flag is set in the branch of the [if]
    that calls it and cleared in the other.  The outer loop collects one
    list of steps per pass. *)

Record step : Type := Step { pos : Z; left : Z; right : Z; swapped : bool }.

Module BubbleTrace.

Fixpoint inner_loop (fuel : nat) (data : vec) (i j : Z)
  : result (vec * list step) :=
  if j <? wrap_size (wrap_size (size data - i) - 1) then
    match fuel with
    | O => OutOfFuel
    | S fuel' =>
        a ← at_index data j;
        b ← at_index data (wrap_size (j + 1));
        '(data', called) ←
          (if a >? b
           then data' ← swap data j (wrap_size (j + 1)); Ok (data', true)
           else Ok (data, false));
        '(data'', steps) ← inner_loop fuel' data' i (wrap_size (j + 1));
        Ok (data'', Step j a b called :: steps)
    end
  else Ok (data, []).

Fixpoint outer_loop (fuel : nat) (data : vec) (i : Z)
  : result (vec * list (list step)) :=
  if i <? size data then
    match fuel with
    | O => OutOfFuel
    | S fuel' =>
        '(data', steps) ← inner_loop (length data) data i 0;
        '(data'', passes) ← outer_loop fuel' data' (wrap_size (i + 1));
        Ok (data'', steps :: passes)
    end
  else Ok (data, []).

Definition sort (data : vec) : result (vec * list (list step)) :=
  outer_loop (length data) data 0.

End BubbleTrace.

(** ** The partition step as the specification words it

    Pivot [data[high]], boundary [i] starting at [low - 1], a scan of
    [low .. high - 1] moving every element strictly below the pivot to
    position [i + 1], then the pivot moved to [i + 1], which is returned.
    Indices are mathematical integers here and nothing can fail. *)

Definition elem (data : vec) (k : Z) : Z := default 0 (data !! Z.to_nat k).

Definition exchange (data : vec) (a b : Z) : vec :=
  <[Z.to_nat b := elem data a]> (<[Z.to_nat a := elem data b]> data).

Definition scan_step (pivot : Z) (st : vec * Z) (j : Z) : vec * Z :=
  let '(d, i) := st in
  if elem d j <? pivot then (exchange d (i + 1) j, i + 1) else (d, i).

Definition partition_spec (data : vec) (low high : Z) : vec * Z :=
  let pivot := elem data high in
  let '(d, i) := foldl (scan_step pivot) (data, low - 1) (seqZ low (high - low)) in
  (exchange d (i + 1) high, i + 1).

(** ** The runner (main.cpp, lines 260-296) *)

(** *** Formatted extraction [iss >> number]

    [std::istream::operator>>(int&)] with the default flags ([skipws],
    [dec]) in the "C" locale: leading white space is skipped, then an
    optional sign and a maximal run of decimal digits are read.  The
    extraction fails when there is no digit or when the value does not
    fit in [int]. *)

Definition isspace (c : ascii) : bool :=
  let n := nat_of_ascii c in
  (n =? 32)%nat || ((9 <=? n)%nat && (n <=? 13)%nat).

Definition isdigit (c : ascii) : bool :=
  let n := nat_of_ascii c in
  (48 <=? n)%nat && (n <=? 57)%nat.

Definition digit_value (c : ascii) : Z := Z.of_nat (nat_of_ascii c) - 48.

Fixpoint skip_ws (s : list ascii) : list ascii :=
  match s with
  | c :: s' => if isspace c then skip_ws s' else s
  | [] => []
  end.

(** Reads a maximal run of digits, accumulating its value. *)
Fixpoint read_digits (acc : Z) (s : list ascii) : Z * list ascii :=
  match s with
  | c :: s' => if isdigit c then read_digits (10 * acc + digit_value c) s' else (acc, s)
  | [] => (acc, [])
  end.

Definition starts_with_digit (s : list ascii) : bool :=
  match s with
  | c :: _ => isdigit c
  | [] => false
  end.

Definition plus_sign : ascii := "+"%char.
Definition minus_sign : ascii := "-"%char.

Definition read_sign (s : list ascii) : bool * list ascii :=
  match s with
  | c :: s' =>
      if Ascii.eqb c minus_sign then (true, s')
      else if Ascii.eqb c plus_sign then (false, s')
      else (false, s)
  | [] => (false, [])
  end.

(** [Some (v, rest)] when the extraction succeeds, [None] when it sets
    [failbit]. *)
Definition extract_int (s : list ascii) : option (Z * list ascii) :=
  let '(negative, s1) := read_sign (skip_ws s) in
  if starts_with_digit s1 then
    let '(magnitude, rest) := read_digits 0 s1 in
    let v := if negative then - magnitude else magnitude in
    if (INT_MIN <=? v) && (v <=? INT_MAX) then Some (v, rest) else None
  else None.

(** The loop [while (iss >> number) data.push_back(number);]. *)
Fixpoint read_numbers (fuel : nat) (s : list ascii) : result vec :=
  match extract_int s with
  | Some (v, rest) =>
      match fuel with
      | O => OutOfFuel
      | S fuel' => data ← read_numbers fuel' rest; Ok (v :: data)
      end
  | None => Ok []
  end.

Definition parse_line (line : string) : result vec :=
  let s := list_ascii_of_string line in
  read_numbers (length s) s.

(** *** The parse as the specification words it: the maximal prefix of
    the white-space separated tokens that are integers. *)

Fixpoint read_token (s : list ascii) : list ascii * list ascii :=
  match s with
  | c :: s' =>
      if isspace c then ([], s)
      else let '(tok, rest) := read_token s' in (c :: tok, rest)
  | [] => ([], [])
  end.

Fixpoint tokens (fuel : nat) (s : list ascii) : list (list ascii) :=
  match skip_ws s with
  | [] => []
  | s1 =>
      match fuel with
      | O => []
      | S fuel' => let '(tok, rest) := read_token s1 in tok :: tokens fuel' rest
      end
  end.

Definition tokens_of (line : string) : list (list ascii) :=
  let s := list_ascii_of_string line in
  tokens (length s) s.

(** An integer token: an optional sign and decimal digits up to the end
    of the token, with a value that fits in [int]. *)
Definition token_value (tok : list ascii) : option Z :=
  match extract_int tok with
  | Some (v, []) => Some v
  | _ => None
  end.

Fixpoint numeric_prefix (toks : list (list ascii)) : vec :=
  match toks with
  | tok :: toks' =>
      match token_value tok with
      | Some v => v :: numeric_prefix toks'
      | None => []
      end
  | [] => []
  end.

(** The first token that is not an integer, if any. *)
Fixpoint first_bad_token (toks : list (list ascii)) : option (list ascii) :=
  match toks with
  | tok :: toks' =>
      match token_value tok with
      | Some _ => first_bad_token toks'
      | None => Some tok
      end
  | [] => None
  end.

Definition spec_parse (line : string) : vec := numeric_prefix (tokens_of line).

(** The characters that follow the first token that is not an integer
    (none when every token is an integer). *)
Fixpoint after_first_bad (fuel : nat) (s : list ascii) : list ascii :=
  match skip_ws s with
  | [] => []
  | s1 =>
      match fuel with
      | O => []
      | S fuel' =>
          let '(tok, rest) := read_token s1 in
          match token_value tok with
          | Some _ => after_first_bad fuel' rest
          | None => rest
          end
      end
  end.

Definition after_bad_token (line : string) : list ascii :=
  let s := list_ascii_of_string line in
  after_first_bad (length s) s.

(** *** main *)

Inductive algorithm : Type := Bubble | Quick.

(** What a run of [main] does: the text written to [std::cout], the exit
    status and (ghost) the calls of a sort routine with their argument. *)
Record outcome : Type := Outcome {
  stdout : string;
  status : Z;
  sort_calls : list (algorithm * vec)
}.

Definition prompt_numbers : string := "Enter numbers to sort (separated by spaces): ".
Definition prompt_choice : string :=
  "Choose sorting algorithm: 1 for Bubble Sort, 2 for Quick Sort: ".
Definition newline : string := String (ascii_of_nat 10) EmptyString.

Definition print_numbers (data : vec) : string :=
  String.concat "" (map (fun num : Z => pretty num +:+ " ") data).

Definition report (data : vec) (duration : Z) : string :=
  prompt_numbers +:+ prompt_choice +:+
  "Sorted Data: " +:+ print_numbers data +:+ newline +:+
  "Time taken: " +:+ pretty duration +:+ " microseconds" +:+ newline.

(** [line] is the line read by [std::getline], [choice] the value of the
    variable [choice] after [std::cin >> choice] and [duration] the
    number of microseconds measured around the call. *)
Definition main (line : string) (choice duration : Z) : result outcome :=
  data ← parse_line line;
  if choice =? 1 then
    sorted ← BubbleSort.sort data;
    Ok (Outcome (report sorted duration) 0 [(Bubble, data)])
  else if choice =? 2 then
    sorted ← QuickSort.sort data;
    Ok (Outcome (report sorted duration) 0 [(Quick, data)])
  else
    Ok (Outcome (prompt_numbers +:+ prompt_choice +:+ "Invalid choice." +:+ newline) 1 []).

(** [needle] occurs in [s]. *)
Fixpoint contains (needle s : string) : bool :=
  String.prefix needle s ||
  match s with
  | String _ s' => contains needle s'
  | EmptyString => false
  end.

(** ** Auxiliary notions used by the proofs *)

(** Exchange of the elements at two positions of a list (no effect when
    a position is outside the list). *)
Definition lswap (data : vec) (a b : nat) : vec :=
  match data !! a, data !! b with
  | Some x, Some y => <[b := x]> (<[a := y]> data)
  | _, _ => data
  end.

(** The body of the inner loop of BubbleSort at index [j]. *)
Definition compare_swap (data : vec) (j : nat) : vec :=
  match data !! j, data !! S j with
  | Some a, Some b => if a >? b then lswap data j (S j) else data
  | _, _ => data
  end.

(** [k] consecutive executions of that body, starting at index [j]. *)
Fixpoint bubble_pass (k j : nat) (data : vec) : vec :=
  match k with
  | O => data
  | S k' => bubble_pass k' (S j) (compare_swap data j)
  end.

(** [k] consecutive passes, starting with pass number [i]. *)
Fixpoint bubble_passes (k i : nat) (data : vec) : vec :=
  match k with
  | O => data
  | S k' => bubble_passes k' (S i) (bubble_pass (length data - i - 1) 0 data)
  end.

(** Every element at a position from [s] on is at least as large as
    every element before it. *)
Definition ordered_from (s : nat) (data : vec) : Prop :=
  forall a b x y, (a < b)%nat -> (s <= b)%nat ->
    data !! a = Some x -> data !! b = Some y -> x <= y.

(** Every adjacent pair of [data] is in non-descending order. *)
Definition adjacent_ordered (data : vec) : Prop :=
  forall (i : nat) a b, data !! i = Some a -> data !! S i = Some b -> a <= b.

(** The positions [lo <= k < hi] hold only values [v] with [P v]. *)
Definition all_in (P : Z -> Prop) (lo hi : Z) (data : vec) : Prop :=
  forall (k : nat) v, lo <= Z.of_nat k < hi -> data !! k = Some v -> P v.

(** [data'] agrees with [data] outside the positions [low .. high]. *)
Definition same_outside (low high : Z) (data data' : vec) : Prop :=
  forall k : nat, (Z.of_nat k < low \/ high < Z.of_nat k) -> data' !! k = data !! k.

(** The positions [low .. high] are in non-descending order. *)
Definition ordered_between (low high : Z) (data : vec) : Prop :=
  forall (a b : nat) x y, low <= Z.of_nat a -> (a < b)%nat -> Z.of_nat b <= high ->
    data !! a = Some x -> data !! b = Some y -> x <= y.

(** The state of the scan of the partition step started at [low] on
    [data], when it reaches index [j] with boundary [i] on the vector [d]. *)
Definition scan_state (pivot low high : Z) (data : vec) (d : vec) (i j : Z) : Prop :=
  low - 1 <= i /\
  length d = length data /\
  d ≡ₚ data /\
  same_outside low (high - 1) data d /\
  (forall P, all_in P low high data -> all_in P low high d) /\
  all_in (fun v => v < pivot) low (i + 1) d /\
  all_in (fun v => pivot <= v) (i + 1) j d.

(** The result [(d, pi)] of the partition step on [low .. high]: the
    pivot [data[high]] is at [pi], smaller elements are before it and the
    others after it. *)
Definition partitioned (low high : Z) (data d : vec) (pi : Z) : Prop :=
  low <= pi <= high /\
  length d = length data /\
  d ≡ₚ data /\
  same_outside low high data d /\
  (forall P, all_in P low (high + 1) data -> all_in P low (high + 1) d) /\
  exists pv, data !! Z.to_nat high = Some pv /\ d !! Z.to_nat pi = Some pv /\
    all_in (fun v => v < pv) low pi d /\
    all_in (fun v => pv <= v) (pi + 1) (high + 1) d.

(** The result [r] of sorting the positions [low .. high] of [data]. *)
Definition sorted_range (low high : Z) (data r : vec) : Prop :=
  length r = length data /\
  r ≡ₚ data /\
  same_outside low high data r /\
  (forall P, all_in P low (high + 1) data -> all_in P low (high + 1) r) /\
  ordered_between low high r.

(** A step of the trace swapped exactly when the left element was
    strictly greater than the right one. *)
Definition step_ok (st : step) : Prop := swapped st = (left st >? right st).

(** [s] is empty or begins with white space: where a token ends. *)
Definition token_end (s : list ascii) : Prop :=
  match s with
  | c :: _ => isspace c = true
  | [] => True
  end.

(** [s] begins with a character that is not white space. *)
Definition token_start (s : list ascii) : Prop :=
  match s with
  | c :: _ => isspace c = false
  | [] => False
  end.

(** How the parsed sequence relates to the tokens of the line, [rest]
    being the characters after the first token that is not an integer:
    the sequence begins with the values of the leading integer tokens;
    it is exactly those when every token is an integer or when nothing
    can be extracted from the first token that is not one; and when an
    integer [v] is extracted from that token, leaving [r] of it, the
    sequence goes on with [v] and with what the loop reads from [r] and
    the characters after the token. *)
Definition parse_relation (toks : list (list ascii)) (rest : list ascii) (data : vec)
  : Prop :=
  numeric_prefix toks `prefix_of` data /\
  match first_bad_token toks with
  | None => data = numeric_prefix toks
  | Some tok =>
      match extract_int tok with
      | None => data = numeric_prefix toks
      | Some (v, r) =>
          exists data',
            read_numbers (length (r ++ rest)) (r ++ rest) = Ok data' /\
            data = numeric_prefix toks ++ v :: data'
      end
  end.

(** Two vectors longer than [int] can index: [INT_MAX] zeros followed by
    a one (2^31 elements, in order), and a one followed by [INT_MAX + 1]
    zeros (2^31 + 1 elements, not in order). *)
Definition long_sorted : vec := replicate (Z.to_nat INT_MAX) 0 ++ [1].
Definition long_unsorted : vec := 1 :: 0 :: replicate (Z.to_nat INT_MAX) 0.

(** ** The other classes of main.cpp

    The classes around the two routines.  A [std::unique_ptr] is [Some]
    object or [None] (null); a call through a null pointer is undefined
    behaviour and gives [Fault], as an access outside a vector does.  An
    object passed by reference is passed to the function and returned
    by it. *)

(** *** Strategy (lines 10-15) and Adapter (lines 117-131) *)

(** The concrete classes behind a [SortStrategy*]. *)
Inductive strategy : Type := UseBubbleSort | UseQuickSort | UseSortAdapter.

(** [std::sort(data.begin(), data.end())] on [int]s with [operator<]:
    the elements in ascending order (the standard fixes the result, not
    the algorithm; on integers the ascending rearrangement is unique). *)
Definition std_sort (data : vec) : vec := merge_sort Z.le data.

Module ThirdPartySort.

Definition externalSort (data : vec) : result vec := Ok (std_sort data).

End ThirdPartySort.

Module SortAdapter.

Definition sort (data : vec) : result vec := ThirdPartySort.externalSort data.

End SortAdapter.

(** The virtual call [s.sort(data)]. *)
Definition strategy_sort (s : strategy) (data : vec) : result vec :=
  match s with
  | UseBubbleSort => BubbleSort.sort data
  | UseQuickSort => QuickSort.sort data
  | UseSortAdapter => SortAdapter.sort data
  end.

(** [p->sort(data)] for a [std::unique_ptr<SortStrategy> p]. *)
Definition call_sort (p : option strategy) (data : vec) : result vec :=
  match p with
  | Some s => strategy_sort s data
  | None => Fault
  end.

(** *** Template Method (lines 58-86) *)

Inductive sort_template : Type := BubbleSortTemplate | QuickSortTemplate.

Module SortTemplate.

(** Neither concrete template overrides the two hooks. *)
Definition preSort (t : sort_template) (data : vec) : result vec := Ok data.

Definition doSort (t : sort_template) (data : vec) : result vec :=
  match t with
  | BubbleSortTemplate => BubbleSort.sort data
  | QuickSortTemplate => QuickSort.sort data
  end.

Definition postSort (t : sort_template) (data : vec) : result vec := Ok data.

Definition sort (t : sort_template) (data : vec) : result vec :=
  data1 ← preSort t data;
  data2 ← doSort t data1;
  postSort t data2.

End SortTemplate.

(** *** Composite (lines 88-115) *)

#[warnings="-register-all"]
Inductive component : Type :=
| SimpleSort (strategy : option strategy)
| CompositeSort (children : list (option component)).

(** [c.sort(data)]; the inner function is the loop
    [for (auto& child : children) child->sort(data);]. *)
Fixpoint component_sort (c : component) (data : vec) {struct c} : result vec :=
  match c with
  | SimpleSort p => call_sort p data
  | CompositeSort children =>
      (fix each_child (cs : list (option component)) (data : vec) {struct cs}
         : result vec :=
         match cs with
         | [] => Ok data
         | None :: _ => Fault
         | Some child :: cs' =>
             data' ← component_sort child data;
             each_child cs' data'
         end) children data
  end.

(** The same loop, on the children of a [CompositeSort]. *)
Fixpoint children_sort (cs : list (option component)) (data : vec) : result vec :=
  match cs with
  | [] => Ok data
  | None :: _ => Fault
  | Some child :: cs' =>
      data' ← component_sort child data;
      children_sort cs' data'
  end.

(** [CompositeSort::add]: [children.push_back(std::move(component))]. *)
Definition add (children : list (option component)) (c : option component)
  : list (option component) :=
  children ++ [c].

(** No pointer of the component is null. *)
Fixpoint no_null (c : component) : bool :=
  match c with
  | SimpleSort p => bool_decide (is_Some p)
  | CompositeSort children =>
      forallb (fun oc => match oc with Some child => no_null child | None => false end)
              children
  end.

(** The component holds at least one [SimpleSort]. *)
Fixpoint has_leaf (c : component) : bool :=
  match c with
  | SimpleSort _ => true
  | CompositeSort children =>
      existsb (fun oc => match oc with Some child => has_leaf child | None => false end)
              children
  end.

(** *** Iterator (lines 133-152)

    [VectorIterator] keeps a reference to the vector, which is passed to
    its member functions here, and the index of the next element. *)

Record vector_iterator : Type := VectorIterator { index : Z }.

(** The constructor [VectorIterator(vec)]. *)
Definition new_iterator : vector_iterator := VectorIterator 0.

Definition hasNext (it : vector_iterator) (data : vec) : bool :=
  index it <? size data.

(** [return data[index++];]: the element and the iterator after the call. *)
Definition next (it : vector_iterator) (data : vec) : result (Z * vector_iterator) :=
  x ← at_index data (index it);
  Ok (x, VectorIterator (wrap_size (index it + 1))).

(** [k] calls of [next] in a row, with the values they return. *)
Fixpoint next_times (k : nat) (it : vector_iterator) (data : vec)
  : result (vec * vector_iterator) :=
  match k with
  | O => Ok ([], it)
  | S k' =>
      '(x, it') ← next it data;
      '(xs, it'') ← next_times k' it' data;
      Ok (x :: xs, it'')
  end.

(** *** Builder (lines 154-169) *)

Record sort_builder : Type := SortBuilder { builder_strategy : option strategy }.

(** A default-constructed builder holds a null pointer. *)
Definition new_builder : sort_builder := SortBuilder None.

Definition setBubbleSort (b : sort_builder) : sort_builder :=
  SortBuilder (Some UseBubbleSort).

Definition setQuickSort (b : sort_builder) : sort_builder :=
  SortBuilder (Some UseQuickSort).

(** [return std::move(strategy);]: the pointer handed over and the
    builder, whose pointer is null after the move. *)
Definition build (b : sort_builder) : option strategy * sort_builder :=
  (builder_strategy b, SortBuilder None).

(** The two setters, for a sequence of calls on one builder. *)
Inductive setter : Type := SetBubbleSort | SetQuickSort.

Definition apply_setter (b : sort_builder) (s : setter) : sort_builder :=
  match s with
  | SetBubbleSort => setBubbleSort b
  | SetQuickSort => setQuickSort b
  end.

Definition setter_strategy (s : setter) : strategy :=
  match s with
  | SetBubbleSort => UseBubbleSort
  | SetQuickSort => UseQuickSort
  end.

(** *** Command (lines 171-191) *)

Record sort_command : Type := SortCommand { sorter : option strategy; command_data : vec }.

(** [execute]: sorts the command's own copy of the data and prints it;
    returns the command after the call and the text written. *)
Definition execute (c : sort_command) : result (sort_command * string) :=
  sorted ← call_sort (sorter c) (command_data c);
  Ok (SortCommand (sorter c) sorted, print_numbers sorted +:+ newline).

(** *** Facade (lines 217-232)

    The constructor sets both pointers, and nothing resets them. *)

Module SortFacade.

Definition bubbleSort : option strategy := Some UseBubbleSort.
Definition quickSort : option strategy := Some UseQuickSort.

Definition sortWithBubble (data : vec) : result vec := call_sort bubbleSort data.
Definition sortWithQuick (data : vec) : result vec := call_sort quickSort data.

End SortFacade.

(** *** Observer (lines 234-258) *)

Inductive observer : Type := SortObserver.

Definition sorting_completed : string := "Sorting completed." +:+ newline.

(** [update]: the text written to [std::cout]. *)
Definition update (o : observer) : string :=
  match o with
  | SortObserver => sorting_completed
  end.

(** [Subject::addObserver]. *)
Definition addObserver (observers : list (option observer)) (o : option observer)
  : list (option observer) :=
  observers ++ [o].

(** [Subject::notify]: the text written by the observers, in order. *)
Fixpoint notify (observers : list (option observer)) : result string :=
  match observers with
  | [] => Ok EmptyString
  | None :: _ => Fault
  | Some o :: observers' =>
      rest ← notify observers';
      Ok (update o +:+ rest)
  end.

(** * Proofs *)

(** Linear arithmetic over the bounds of the machine integers. *)
Ltac int_lia := unfold is_int, INT_MIN, INT_MAX in *; lia.

(** * Machine integers *)

Lemma wrap_size_small z : 0 <= z < 18446744073709551616 -> wrap_size z = z.
Proof. intros H. unfold wrap_size. apply Z.mod_small. exact H. Qed.

Lemma wrap_int_small z : is_int z -> wrap_int z = z.
Proof.
  unfold is_int, INT_MIN, INT_MAX, wrap_int. intros H.
  rewrite Z.mod_small; lia.
Qed.



(** * The result monad *)


Lemma bind_Ok_inv {A B} (f : A -> result B) (m : result A) (b : B) :
  (m ≫= f) = Ok b -> exists a, m = Ok a /\ f a = Ok b.
Proof. destruct m; simpl; intros H; try discriminate. eauto. Qed.

(** * Vectors *)

Lemma at_index_Ok (data : vec) (k : nat) x :
  data !! k = Some x -> at_index data (Z.of_nat k) = Ok x.
Proof.
  intros H. unfold at_index, size.
  pose proof (lookup_lt_Some _ _ _ H) as Hlt.
  rewrite Nat2Z.id, H.
  destruct (0 <=? Z.of_nat k) eqn:E1; [|lia].
  destruct (Z.of_nat k <? Z.of_nat (length data)) eqn:E2; [|lia].
  reflexivity.
Qed.

Lemma at_index_inv (data : vec) (z x : Z) :
  at_index data z = Ok x ->
  0 <= z < size data /\ data !! Z.to_nat z = Some x.
Proof.
  unfold at_index. intros H.
  destruct (0 <=? z) eqn:E1; simpl in H; [|discriminate].
  destruct (z <? size data) eqn:E2; simpl in H; [|discriminate].
  destruct (data !! Z.to_nat z) eqn:E3; [|discriminate].
  inversion H; subst. split; [lia|reflexivity].
Qed.

Lemma at_index_Fault (data : vec) (z : Z) :
  size data <= z -> at_index data z = Fault.
Proof.
  intros H. unfold at_index.
  destruct (z <? size data) eqn:E; [lia|]. rewrite andb_false_r. reflexivity.
Qed.

Lemma at_index_lt (data : vec) (z : Z) :
  0 <= z < size data -> exists x, at_index data z = Ok x /\ data !! Z.to_nat z = Some x.
Proof.
  intros H. unfold size in H.
  destruct (lookup_lt_is_Some_2 data (Z.to_nat z)) as [x Hx]; [lia|].
  exists x. split; [|exact Hx].
  rewrite <- (Z2Nat.id z) by lia. apply at_index_Ok. exact Hx.
Qed.

Lemma swap_Ok (data : vec) (a b : nat) :
  (a < length data)%nat -> (b < length data)%nat ->
  swap data (Z.of_nat a) (Z.of_nat b) = Ok (lswap data a b).
Proof.
  intros Ha Hb.
  destruct (lookup_lt_is_Some_2 data a Ha) as [x Hx].
  destruct (lookup_lt_is_Some_2 data b Hb) as [y Hy].
  unfold swap, lswap.
  rewrite (at_index_Ok _ _ _ Hx), (at_index_Ok _ _ _ Hy). simpl.
  rewrite !Nat2Z.id, Hx, Hy. reflexivity.
Qed.

Lemma swap_inv (data data' : vec) (a b : Z) :
  swap data a b = Ok data' ->
  0 <= a < size data /\ 0 <= b < size data /\
  data' = lswap data (Z.to_nat a) (Z.to_nat b).
Proof.
  unfold swap. intros H.
  apply bind_Ok_inv in H as (x & Hx & H).
  apply bind_Ok_inv in H as (y & Hy & H).
  apply at_index_inv in Hx as [Ha Hx]. apply at_index_inv in Hy as [Hb Hy].
  inversion H; subst. unfold lswap. rewrite Hx, Hy. auto.
Qed.

Lemma length_lswap (data : vec) a b : length (lswap data a b) = length data.
Proof.
  unfold lswap. destruct (data !! a), (data !! b); try reflexivity.
  rewrite !length_insert. reflexivity.
Qed.

Lemma size_lswap (data : vec) a b : size (lswap data a b) = size data.
Proof. unfold size. rewrite length_lswap. reflexivity. Qed.

Lemma lswap_lookup (data : vec) (a b k : nat) :
  (a < length data)%nat -> (b < length data)%nat ->
  lswap data a b !! k =
    if decide (k = b) then data !! a
    else if decide (k = a) then data !! b
    else data !! k.
Proof.
  intros Ha Hb.
  destruct (lookup_lt_is_Some_2 data a Ha) as [x Hx].
  destruct (lookup_lt_is_Some_2 data b Hb) as [y Hy].
  unfold lswap. rewrite Hx, Hy.
  destruct (decide (k = b)) as [->|Hkb].
  - rewrite list_lookup_insert_eq; [reflexivity|]. rewrite length_insert. exact Hb.
  - rewrite list_lookup_insert_ne by congruence.
    destruct (decide (k = a)) as [->|Hka].
    + rewrite list_lookup_insert_eq; [reflexivity|exact Ha].
    + rewrite list_lookup_insert_ne by congruence. reflexivity.
Qed.

Lemma lswap_same (data : vec) a : lswap data a a = data.
Proof.
  unfold lswap. destruct (data !! a) eqn:E; [|reflexivity].
  rewrite list_insert_id; [apply list_insert_id; exact E|].
  rewrite list_insert_id; exact E.
Qed.

Lemma lswap_perm (data : vec) a b : lswap data a b ≡ₚ data.
Proof.
  destruct (decide (a < length data)%nat) as [Ha|Ha];
    [|unfold lswap; rewrite (lookup_ge_None_2 data a) by lia; reflexivity].
  destruct (decide (b < length data)%nat) as [Hb|Hb];
    [|unfold lswap; rewrite (lookup_ge_None_2 data b) by lia;
      destruct (data !! a); reflexivity].
  apply Permutation_inj. split; [apply length_lswap|].
  exists (fun k => if decide (k = b) then a else if decide (k = a) then b else k).
  split.
  - intros k1 k2. repeat case_decide; subst; congruence.
  - intros k. rewrite lswap_lookup by assumption.
    repeat case_decide; subst; reflexivity.
Qed.

(** * BubbleSort: the passes as list functions *)

Lemma length_compare_swap (data : vec) j : length (compare_swap data j) = length data.
Proof.
  unfold compare_swap. destruct (data !! j), (data !! S j); try reflexivity.
  destruct (_ >? _); [apply length_lswap|reflexivity].
Qed.

Lemma compare_swap_perm (data : vec) j : compare_swap data j ≡ₚ data.
Proof.
  unfold compare_swap. destruct (data !! j), (data !! S j); try reflexivity.
  destruct (_ >? _); [apply lswap_perm|reflexivity].
Qed.

Lemma compare_swap_lookup (data : vec) (j k : nat) a b :
  data !! j = Some a -> data !! S j = Some b ->
  compare_swap data j !! k =
    if decide (k = j) then Some (Z.min a b)
    else if decide (k = S j) then Some (Z.max a b)
    else data !! k.
Proof.
  intros Ha Hb. unfold compare_swap. rewrite Ha, Hb.
  pose proof (lookup_lt_Some _ _ _ Ha). pose proof (lookup_lt_Some _ _ _ Hb).
  destruct (a >? b) eqn:E.
  - rewrite lswap_lookup by assumption.
    repeat case_decide; subst; try lia; rewrite ?Ha, ?Hb; try reflexivity; f_equal; lia.
  - repeat case_decide; subst; rewrite ?Ha, ?Hb; try reflexivity; f_equal; lia.
Qed.

Lemma compare_swap_other (data : vec) (j k : nat) :
  k <> j -> k <> S j -> compare_swap data j !! k = data !! k.
Proof.
  intros H1 H2. unfold compare_swap.
  destruct (data !! j) eqn:Ha; [|reflexivity].
  destruct (data !! S j) eqn:Hb; [|reflexivity].
  destruct (_ >? _); [|reflexivity].
  pose proof (lookup_lt_Some _ _ _ Ha). pose proof (lookup_lt_Some _ _ _ Hb).
  rewrite lswap_lookup by assumption. repeat case_decide; congruence.
Qed.

Lemma compare_swap_window (data : vec) (j p : nat) :
  exists q, (q = p \/ (j <= p <= S j /\ j <= q <= S j))%nat /\
            compare_swap data j !! p = data !! q.
Proof.
  unfold compare_swap.
  destruct (data !! j) eqn:Ha; [|eauto].
  destruct (data !! S j) eqn:Hb; [|eauto].
  destruct (_ >? _); [|eauto].
  pose proof (lookup_lt_Some _ _ _ Ha). pose proof (lookup_lt_Some _ _ _ Hb).
  rewrite lswap_lookup by assumption.
  repeat case_decide; subst; [exists j|exists (S j)|exists p]; split; auto; lia.
Qed.

Lemma length_bubble_pass k j (data : vec) : length (bubble_pass k j data) = length data.
Proof.
  revert j data. induction k as [|k IH]; intros j data; simpl; [reflexivity|].
  rewrite IH. apply length_compare_swap.
Qed.

Lemma bubble_pass_perm k j (data : vec) : bubble_pass k j data ≡ₚ data.
Proof.
  revert j data. induction k as [|k IH]; intros j data; simpl; [reflexivity|].
  rewrite IH. apply compare_swap_perm.
Qed.

Lemma bubble_pass_frame k j (data : vec) (p : nat) :
  (p < j \/ j + k < p)%nat -> bubble_pass k j data !! p = data !! p.
Proof.
  revert j data. induction k as [|k IH]; intros j data Hp; simpl; [reflexivity|].
  rewrite IH by lia. apply compare_swap_other; lia.
Qed.

Lemma bubble_pass_window k j (data : vec) (p : nat) :
  (p <= j + k)%nat ->
  exists q, (q <= j + k)%nat /\ bubble_pass k j data !! p = data !! q.
Proof.
  revert j data. induction k as [|k IH]; intros j data Hp; simpl.
  - exists p. split; [lia|reflexivity].
  - destruct (IH (S j) (compare_swap data j)) as (q & Hq & ->); [lia|].
    destruct (compare_swap_window data j q) as (q' & Hq' & ->).
    exists q'. split; [lia|reflexivity].
Qed.

(** After the pass the largest element of the window is at its end. *)
Lemma bubble_pass_max k j (data : vec) :
  (j + k < length data)%nat ->
  (forall p x y, (p < j)%nat -> data !! p = Some x -> data !! j = Some y -> x <= y) ->
  forall p x y, (p < j + k)%nat ->
    bubble_pass k j data !! p = Some x ->
    bubble_pass k j data !! (j + k)%nat = Some y -> x <= y.
Proof.
  revert j data. induction k as [|k IH]; intros j data Hlen Hmax p x y Hp Hx Hy; simpl in *.
  - rewrite Nat.add_0_r in *. eauto.
  - replace (j + S k)%nat with (S j + k)%nat in * by lia.
    destruct (lookup_lt_is_Some_2 data j) as [a Ha]; [lia|].
    destruct (lookup_lt_is_Some_2 data (S j)) as [b Hb]; [lia|].
    eapply (IH (S j) (compare_swap data j)); eauto.
    + rewrite length_compare_swap. lia.
    + intros p' x' y' Hp' Hx' Hy'.
      rewrite (compare_swap_lookup _ _ p' _ _ Ha Hb) in Hx'.
      rewrite (compare_swap_lookup _ _ (S j) _ _ Ha Hb) in Hy'.
      repeat case_decide; subst; try lia;
        simplify_eq; try lia.
      assert (x' <= a) by (eapply Hmax; eauto; lia). lia.
Qed.

Lemma ordered_from_pass (data : vec) (i : nat) :
  (i < length data)%nat ->
  ordered_from (length data - i) data ->
  ordered_from (length data - S i) (bubble_pass (length data - i - 1) 0 data).
Proof.
  intros Hi Hord a b x y Hab Hb Hx Hy.
  set (m := (length data - i - 1)%nat) in *.
  pose proof (lookup_lt_Some _ _ _ Hy) as Hblen. rewrite length_bubble_pass in Hblen.
  destruct (decide (b = m)) as [->|Hbm].
  - eapply (bubble_pass_max m 0 data); eauto; try lia.
  - rewrite bubble_pass_frame in Hy by lia.
    destruct (decide (a <= m)%nat) as [Ham|Ham].
    + destruct (bubble_pass_window m 0 data a) as (q & Hq & Hq'); [lia|].
      rewrite Hq' in Hx. eapply (Hord q b); eauto; lia.
    + rewrite bubble_pass_frame in Hx by lia.
      eapply (Hord a b); eauto; lia.
Qed.


Lemma bubble_passes_perm k i (data : vec) : bubble_passes k i data ≡ₚ data.
Proof.
  revert i data. induction k as [|k IH]; intros i data; simpl; [reflexivity|].
  rewrite IH. apply bubble_pass_perm.
Qed.

Lemma bubble_passes_ordered k i (data : vec) :
  (i + k = length data)%nat ->
  ordered_from (length data - i) data ->
  ordered_from 0 (bubble_passes k i data).
Proof.
  revert i data. induction k as [|k IH]; intros i data Hik Hord; simpl.
  - replace (length data - i)%nat with 0%nat in Hord by lia. exact Hord.
  - apply IH.
    + rewrite length_bubble_pass. lia.
    + rewrite length_bubble_pass. apply ordered_from_pass; [lia|exact Hord].
Qed.

Lemma ordered_from_adjacent (data : vec) : ordered_from 0 data -> adjacent_ordered data.
Proof. intros H i a b Ha Hb. eapply (H i (S i)); eauto; lia. Qed.

Lemma ordered_from_StronglySorted (data : vec) :
  ordered_from 0 data -> StronglySorted Z.le data.
Proof.
  induction data as [|x data IH]; intros H; constructor.
  - apply IH. intros a b u v Hab _ Hu Hv. eapply (H (S a) (S b)); eauto; lia.
  - apply Forall_forall. intros y Hy.
    apply list_elem_of_lookup in Hy as [k Hk].
    eapply (H 0%nat (S k)); eauto; lia.
Qed.


(** * BubbleSort: the loops of the code run the passes *)

Lemma bubble_bound (data : vec) (i : nat) :
  vector_wf data -> (i < length data)%nat ->
  wrap_size (wrap_size (size data - Z.of_nat i) - 1) = Z.of_nat (length data - i - 1).
Proof.
  unfold vector_wf, PTRDIFF_MAX, size. intros Hwf Hi.
  rewrite (wrap_size_small (Z.of_nat (length data) - Z.of_nat i)) by lia.
  rewrite wrap_size_small by lia. lia.
Qed.

Lemma size_t_succ (data : vec) (j : nat) :
  vector_wf data -> (j < length data)%nat ->
  wrap_size (Z.of_nat j + 1) = Z.of_nat (S j).
Proof.
  unfold vector_wf, PTRDIFF_MAX, size. intros Hwf Hj.
  rewrite wrap_size_small by lia. lia.
Qed.

Lemma vector_wf_length (data data' : vec) :
  length data' = length data -> vector_wf data -> vector_wf data'.
Proof. unfold vector_wf, size. intros ->. auto. Qed.

Lemma bubble_body (data : vec) (j : nat) a b :
  data !! j = Some a -> data !! S j = Some b ->
  (if a >? b then swap data (Z.of_nat j) (Z.of_nat (S j)) else Ok data)
  = Ok (compare_swap data j).
Proof.
  intros Ha Hb. unfold compare_swap. rewrite Ha, Hb.
  destruct (a >? b); [|reflexivity].
  apply swap_Ok; eapply lookup_lt_Some; eauto.
Qed.

Lemma inner_loop_unfold fuel (data : vec) i j :
  BubbleSort.inner_loop fuel data i j =
    if j <? wrap_size (wrap_size (size data - i) - 1) then
      match fuel with
      | O => OutOfFuel
      | S fuel' =>
          a ← at_index data j;
          b ← at_index data (wrap_size (j + 1));
          data' ← (if a >? b then swap data j (wrap_size (j + 1)) else Ok data);
          BubbleSort.inner_loop fuel' data' i (wrap_size (j + 1))
      end
    else Ok data.
Proof. destruct fuel; reflexivity. Qed.

Lemma inner_loop_refines k : forall fuel (data : vec) (i j : nat),
  vector_wf data -> (i < length data)%nat ->
  (j + k = length data - i - 1)%nat -> (k <= fuel)%nat ->
  BubbleSort.inner_loop fuel data (Z.of_nat i) (Z.of_nat j) = Ok (bubble_pass k j data).
Proof.
  induction k as [|k IH]; intros fuel data i j Hwf Hi Hjk Hfuel;
    rewrite inner_loop_unfold, bubble_bound by assumption.
  - destruct (Z.ltb_spec (Z.of_nat j) (Z.of_nat (length data - i - 1))); [lia|reflexivity].
  - destruct (Z.ltb_spec (Z.of_nat j) (Z.of_nat (length data - i - 1))); [|lia].
    destruct fuel as [|fuel]; [lia|].
    destruct (lookup_lt_is_Some_2 data j) as [a Ha]; [lia|].
    destruct (lookup_lt_is_Some_2 data (S j)) as [b Hb]; [lia|].
    rewrite (size_t_succ data j) by (auto; lia).
    rewrite (at_index_Ok _ _ _ Ha), (at_index_Ok _ _ _ Hb). simpl mbind.
    rewrite (bubble_body _ _ _ _ Ha Hb). simpl.
    apply IH.
    + eapply vector_wf_length; [apply length_compare_swap|exact Hwf].
    + rewrite length_compare_swap. exact Hi.
    + rewrite length_compare_swap. lia.
    + lia.
Qed.

Lemma outer_loop_unfold fuel (data : vec) i :
  BubbleSort.outer_loop fuel data i =
    if i <? size data then
      match fuel with
      | O => OutOfFuel
      | S fuel' =>
          data' ← BubbleSort.inner_loop (length data) data i 0;
          BubbleSort.outer_loop fuel' data' (wrap_size (i + 1))
      end
    else Ok data.
Proof. destruct fuel; reflexivity. Qed.

Lemma outer_loop_refines k : forall fuel (data : vec) (i : nat),
  vector_wf data -> (i + k = length data)%nat -> (k <= fuel)%nat ->
  BubbleSort.outer_loop fuel data (Z.of_nat i) = Ok (bubble_passes k i data).
Proof.
  induction k as [|k IH]; intros fuel data i Hwf Hik Hfuel;
    rewrite outer_loop_unfold; unfold size.
  - destruct (Z.ltb_spec (Z.of_nat i) (Z.of_nat (length data))); [lia|reflexivity].
  - destruct (Z.ltb_spec (Z.of_nat i) (Z.of_nat (length data))); [|lia].
    destruct fuel as [|fuel]; [lia|].
    change 0 with (Z.of_nat 0).
    rewrite (inner_loop_refines (length data - i - 1) (length data) data i 0%nat)
      by (auto; lia).
    simpl mbind. rewrite (size_t_succ data i) by (auto; lia). simpl.
    apply IH.
    + eapply vector_wf_length; [apply length_bubble_pass|exact Hwf].
    + rewrite length_bubble_pass. lia.
    + lia.
Qed.

Lemma bubble_sort_refines (data : vec) :
  vector_wf data -> BubbleSort.sort data = Ok (bubble_passes (length data) 0 data).
Proof.
  intros Hwf. unfold BubbleSort.sort.
  change 0 with (Z.of_nat 0).
  apply (outer_loop_refines (length data) (length data) data 0%nat); auto.
Qed.

Lemma bubble_passes_sorted (data : vec) :
  ordered_from 0 (bubble_passes (length data) 0 data).
Proof.
  apply bubble_passes_ordered; [lia|].
  intros a b x y _ Hb _ Hy. apply lookup_lt_Some in Hy. lia.
Qed.

(** * QuickSort: the scan of the partition step *)

Lemma elem_lookup (data : vec) (k : Z) v :
  data !! Z.to_nat k = Some v -> elem data k = v.
Proof. unfold elem. intros ->. reflexivity. Qed.

Lemma exchange_lswap (data : vec) (a b : Z) :
  0 <= a < size data -> 0 <= b < size data ->
  exchange data a b = lswap data (Z.to_nat a) (Z.to_nat b).
Proof.
  unfold size. intros Ha Hb.
  destruct (lookup_lt_is_Some_2 data (Z.to_nat a)) as [x Hx]; [lia|].
  destruct (lookup_lt_is_Some_2 data (Z.to_nat b)) as [y Hy]; [lia|].
  unfold exchange, lswap, elem. rewrite Hx, Hy. reflexivity.
Qed.

Lemma swap_Ok_Z (data : vec) (a b : Z) :
  0 <= a < size data -> 0 <= b < size data ->
  swap data a b = Ok (exchange data a b).
Proof.
  intros Ha Hb. rewrite exchange_lswap by assumption. unfold size in *.
  rewrite <- (Z2Nat.id a) at 1 by lia. rewrite <- (Z2Nat.id b) at 1 by lia.
  apply swap_Ok; lia.
Qed.

Lemma partition_loop_unfold fuel (data : vec) pivot i j high :
  QuickSort.partition_loop fuel data pivot i j high =
    if j <? high then
      match fuel with
      | O => OutOfFuel
      | S fuel' =>
          x ← at_index data (wrap_size j);
          if x <? pivot then
            let i' := wrap_int (i + 1) in
            data' ← swap data (wrap_size i') (wrap_size j);
            QuickSort.partition_loop fuel' data' pivot i' (wrap_int (j + 1)) high
          else
            QuickSort.partition_loop fuel' data pivot i (wrap_int (j + 1)) high
      end
    else Ok (data, i).
Proof. destruct fuel; reflexivity. Qed.

Lemma size_exchange (data : vec) a b : size (exchange data a b) = size data.
Proof. unfold size, exchange. rewrite !length_insert. reflexivity. Qed.

Lemma int_index (z : Z) : 0 <= z <= INT_MAX -> wrap_size z = z.
Proof. unfold INT_MAX. intros H. apply wrap_size_small. lia. Qed.

Lemma int_small (z : Z) : -1 <= z <= INT_MAX -> wrap_int z = z.
Proof. unfold INT_MAX. intros H. apply wrap_int_small. int_lia. Qed.

(** The loop computes the scan of the specification. *)
Lemma partition_loop_refines (k : nat) : forall fuel (data : vec) pivot i j high,
  -1 <= i < j -> j + Z.of_nat k = high -> high <= size data -> high <= INT_MAX ->
  (k <= fuel)%nat ->
  QuickSort.partition_loop fuel data pivot i j high
  = Ok (foldl (scan_step pivot) (data, i) (seqZ j (Z.of_nat k))).
Proof.
  induction k as [|k IH]; intros fuel data pivot i j high Hi Hk Hhigh Hmax Hfuel;
    rewrite partition_loop_unfold.
  - destruct (Z.ltb_spec j high); [lia|reflexivity].
  - destruct (Z.ltb_spec j high); [|lia].
    destruct fuel as [|fuel]; [lia|].
    rewrite seqZ_cons by lia. cbn [foldl].
    rewrite (int_index j), (int_small (j + 1)), (int_small (i + 1)), (int_index (i + 1)) by lia.
    destruct (at_index_lt data j) as (x & -> & Hx); [lia|]. simpl mbind.
    unfold scan_step at 2. rewrite (elem_lookup _ _ _ Hx).
    replace (Z.pred (Z.of_nat (S k))) with (Z.of_nat k) by lia.
    replace (Z.succ j) with (j + 1) by lia.
    destruct (x <? pivot).
    + cbv zeta. rewrite swap_Ok_Z by lia. simpl mbind.
      apply IH; try lia. rewrite size_exchange. lia.
    + apply IH; try lia.
Qed.

(** An invariant of the scan is established by showing that both
    branches of its step preserve it. *)
Section ScanInvariant.

Variable Inv : vec -> Z -> Z -> Prop.
Variables pivot high : Z.

Hypothesis Inv_below : forall (d : vec) i j v,
  Inv d i j -> -1 <= i < j -> j < high -> high <= size d ->
  d !! Z.to_nat j = Some v -> v < pivot ->
  Inv (lswap d (Z.to_nat (i + 1)) (Z.to_nat j)) (i + 1) (j + 1).

Hypothesis Inv_other : forall (d : vec) i j v,
  Inv d i j -> -1 <= i < j -> j < high -> high <= size d ->
  d !! Z.to_nat j = Some v -> pivot <= v ->
  Inv d i (j + 1).

Lemma scan_invariant (k : nat) : forall (data : vec) i j d' i',
  -1 <= i < j -> j + Z.of_nat k = high -> high <= size data ->
  Inv data i j ->
  foldl (scan_step pivot) (data, i) (seqZ j (Z.of_nat k)) = (d', i') ->
  Inv d' i' high /\ -1 <= i' < high /\ size d' = size data.
Proof.
  induction k as [|k IH]; intros data i j d' i' Hi Hk Hhigh HInv Hscan.
  - simpl in Hscan. injection Hscan as <- <-. replace high with j by lia. split; [exact HInv|lia].
  - rewrite seqZ_cons in Hscan by lia. cbn [foldl] in Hscan.
    replace (Z.pred (Z.of_nat (S k))) with (Z.of_nat k) in Hscan by lia.
    replace (Z.succ j) with (j + 1) in Hscan by lia.
    destruct (lookup_lt_is_Some_2 data (Z.to_nat j)) as [x Hx]; [unfold size in *; lia|].
    unfold scan_step at 2 in Hscan. rewrite (elem_lookup _ _ _ Hx) in Hscan.
    destruct (Z.ltb_spec x pivot).
    + rewrite exchange_lswap in Hscan by lia.
      apply IH in Hscan; try lia.
      * rewrite size_lswap in Hscan. exact Hscan.
      * rewrite size_lswap. lia.
      * eapply Inv_below; eauto; lia.
    + apply IH in Hscan; try lia; [exact Hscan|].
      eapply Inv_other; eauto; lia.
Qed.

End ScanInvariant.

(** * QuickSort: what the partition step establishes *)

Lemma all_in_lswap (P : Z -> Prop) lo hi (d : vec) (a b : nat) :
  lo <= Z.of_nat a < hi -> lo <= Z.of_nat b < hi ->
  (a < length d)%nat -> (b < length d)%nat ->
  all_in P lo hi d -> all_in P lo hi (lswap d a b).
Proof.
  intros Ha Hb Hla Hlb H k v Hk Hv.
  rewrite lswap_lookup in Hv by assumption.
  repeat case_decide; subst; [exact (H a v Ha Hv)|exact (H b v Hb Hv)|exact (H k v Hk Hv)].
Qed.

Lemma same_outside_refl lo hi (d : vec) : same_outside lo hi d d.
Proof. intros k _. reflexivity. Qed.

Lemma same_outside_trans lo hi (d1 d2 d3 : vec) :
  same_outside lo hi d1 d2 -> same_outside lo hi d2 d3 -> same_outside lo hi d1 d3.
Proof. intros H1 H2 k Hk. rewrite H2, H1 by assumption. reflexivity. Qed.

Lemma same_outside_weaken lo hi lo' hi' (d1 d2 : vec) :
  lo' <= lo -> hi <= hi' -> same_outside lo hi d1 d2 -> same_outside lo' hi' d1 d2.
Proof. intros Hlo Hhi H k Hk. apply H. lia. Qed.

Lemma same_outside_lswap lo hi (d : vec) (a b : nat) :
  lo <= Z.of_nat a <= hi -> lo <= Z.of_nat b <= hi ->
  same_outside lo hi d (lswap d a b).
Proof.
  intros Ha Hb k Hk.
  destruct (decide (a < length d)%nat) as [Hla|Hla];
    [|unfold lswap; rewrite (lookup_ge_None_2 d a) by lia; reflexivity].
  destruct (decide (b < length d)%nat) as [Hlb|Hlb];
    [|unfold lswap; rewrite (lookup_ge_None_2 d b) by lia; destruct (d !! a); reflexivity].
  rewrite lswap_lookup by assumption.
  repeat case_decide; subst; try lia. reflexivity.
Qed.

Lemma all_in_empty (P : Z -> Prop) lo hi (d : vec) : hi <= lo -> all_in P lo hi d.
Proof. intros H k v Hk. lia. Qed.

Lemma all_in_same (P : Z -> Prop) lo hi lo' hi' (d d' : vec) :
  same_outside lo' hi' d d' -> (hi <= lo' \/ hi' < lo) ->
  all_in P lo hi d -> all_in P lo hi d'.
Proof.
  intros Hsame Hdisj H k v Hk Hv. rewrite Hsame in Hv by lia. eapply H; eauto.
Qed.

Lemma scan_state_holds pivot low high (data : vec) d' i' :
  0 <= low <= high -> high <= size data ->
  foldl (scan_step pivot) (data, low - 1) (seqZ low (high - low)) = (d', i') ->
  scan_state pivot low high data d' i' high /\ low - 1 <= i' < high.
Proof.
  intros Hlow Hhigh Hscan.
  rewrite <- (Z2Nat.id (high - low)) in Hscan by lia.
  eapply (scan_invariant (scan_state pivot low high data) pivot high) in Hscan.
  - destruct Hscan as (Hst & Hi' & _). split; [exact Hst|]. destruct Hst. lia.
  - (* an element below the pivot is moved to the boundary *)
    clear. intros d i j v (Hi & Hlen & Hperm & Hsame & Hwin & Hlt & Hge) Hij Hj Hhigh Hv Hvp.
    unfold size in Hhigh.
    assert (Ha : (Z.to_nat (i + 1) < length d)%nat) by lia.
    assert (Hb : (Z.to_nat j < length d)%nat) by lia.
    repeat split.
    + lia.
    + rewrite length_lswap. exact Hlen.
    + rewrite lswap_perm. exact Hperm.
    + eapply same_outside_trans; [exact Hsame|]. apply same_outside_lswap; lia.
    + intros P HP. apply all_in_lswap; auto; lia.
    + intros k w Hk Hw. rewrite lswap_lookup in Hw by assumption.
      repeat case_decide; subst.
      * replace (i + 1) with j in Hw by lia. rewrite Hv in Hw. simplify_eq. exact Hvp.
      * rewrite Hv in Hw. simplify_eq. exact Hvp.
      * eapply Hlt; eauto; lia.
    + intros k w Hk Hw. rewrite lswap_lookup in Hw by assumption.
      repeat case_decide; subst; try lia.
      * eapply Hge; eauto; lia.
      * eapply Hge; eauto; lia.
  - (* any other element stays where it is *)
    clear. intros d i j v (Hi & Hlen & Hperm & Hsame & Hwin & Hlt & Hge) Hij Hj Hhigh Hv Hvp.
    repeat split; auto.
    intros k w Hk Hw.
    destruct (decide (k = Z.to_nat j)) as [->|Hne].
    + rewrite Hv in Hw. simplify_eq. exact Hvp.
    + eapply Hge; eauto; lia.
  - lia.
  - lia.
  - exact Hhigh.
  - repeat split; auto using same_outside_refl, all_in_empty.
    + lia.
    + apply all_in_empty. lia.
    + apply all_in_empty. lia.
Qed.

Lemma partition_spec_partitioned (data : vec) low high d pi :
  0 <= low <= high -> high < size data ->
  partition_spec data low high = (d, pi) ->
  partitioned low high data d pi.
Proof.
  intros Hlow Hhigh Hspec. unfold partition_spec in Hspec.
  destruct (foldl _ _ _) as [d1 i] eqn:Hscan.
  injection Hspec as <- <-.
  apply scan_state_holds in Hscan as [(_ & Hlen & Hperm & Hsame & Hwin & Hlt & Hge) Hi]; try lia.
  unfold size in Hhigh.
  destruct (lookup_lt_is_Some_2 data (Z.to_nat high)) as [pv Hpv]; [lia|].
  rewrite (elem_lookup _ _ _ Hpv) in Hlt, Hge.
  assert (Hpv1 : d1 !! Z.to_nat high = Some pv) by (rewrite Hsame by lia; exact Hpv).
  destruct (lookup_lt_is_Some_2 d1 (Z.to_nat (i + 1))) as [w Hw]; [lia|].
  rewrite exchange_lswap by (unfold size; lia).
  assert (Ha : (Z.to_nat (i + 1) < length d1)%nat) by lia.
  assert (Hb : (Z.to_nat high < length d1)%nat) by lia.
  repeat split.
  - lia.
  - lia.
  - rewrite length_lswap. exact Hlen.
  - rewrite lswap_perm. exact Hperm.
  - eapply same_outside_trans.
    + eapply same_outside_weaken; [| |exact Hsame]; lia.
    + apply same_outside_lswap; lia.
  - intros P HP. apply all_in_lswap; auto; try lia.
    intros k v Hk Hv.
    destruct (decide (k = Z.to_nat high)) as [->|Hne].
    + rewrite Hpv1 in Hv. simplify_eq. apply (HP (Z.to_nat high) v); [lia|exact Hpv].
    + assert (HP' : all_in P low high data)
        by (intros k' v' Hk' Hv'; apply (HP k' v'); [lia|exact Hv']).
      apply (Hwin P HP' k v); [lia|exact Hv].
  - exists pv. repeat split.
    + exact Hpv.
    + rewrite lswap_lookup by assumption.
      repeat case_decide; try lia; congruence.
    + intros k v Hk Hv. rewrite lswap_lookup in Hv by assumption.
      repeat case_decide; subst; try lia. eapply Hlt; eauto; lia.
    + intros k v Hk Hv. rewrite lswap_lookup in Hv by assumption.
      repeat case_decide; subst; try lia.
      * eapply Hge; eauto; lia.
      * eapply Hge; eauto; lia.
Qed.

Lemma partition_refines (data : vec) low high :
  0 <= low <= high -> high < size data -> high <= INT_MAX ->
  QuickSort.partition data low high = Ok (partition_spec data low high).
Proof.
  intros Hlow Hhigh Hmax. unfold QuickSort.partition, partition_spec.
  rewrite (int_index high), (int_small (low - 1)) by lia.
  destruct (at_index_lt data high) as (pv & -> & Hpv); [lia|]. simpl mbind.
  rewrite (elem_lookup _ _ _ Hpv).
  rewrite (partition_loop_refines (Z.to_nat (high - low)) (length data) data pv (low - 1) low high)
    by (unfold size in *; lia).
  rewrite Z2Nat.id by lia.
  destruct (foldl _ _ _) as [d1 i] eqn:Hscan. simpl mbind.
  apply scan_state_holds in Hscan as [(_ & Hlen & _) Hi]; try lia.
  rewrite (int_small (i + 1)), (int_index (i + 1)) by lia.
  rewrite swap_Ok_Z by (unfold size in *; lia). reflexivity.
Qed.

(** * QuickSort: the recursion *)

Lemma quicksort_unfold fuel (data : vec) low high :
  QuickSort.quicksort fuel data low high =
    if low <? high then
      match fuel with
      | O => OutOfFuel
      | S fuel' =>
          '(data1, pi) ← QuickSort.partition data low high;
          data2 ← QuickSort.quicksort fuel' data1 low (wrap_int (pi - 1));
          QuickSort.quicksort fuel' data2 (wrap_int (pi + 1)) high
      end
    else Ok data.
Proof. destruct fuel; reflexivity. Qed.

Lemma quicksort_trivial fuel (data : vec) low high :
  high <= low -> QuickSort.quicksort fuel data low high = Ok data.
Proof. intros H. rewrite quicksort_unfold. destruct (Z.ltb_spec low high); [lia|reflexivity]. Qed.

Lemma sorted_range_trivial low high (data : vec) :
  high <= low -> sorted_range low high data data.
Proof.
  intros H. repeat split; auto using same_outside_refl.
  intros a b x y Ha Hab Hb. lia.
Qed.

Lemma sorted_range_combine low high pi (data d1 d2 d3 : vec) :
  0 <= low ->
  partitioned low high data d1 pi ->
  sorted_range low (pi - 1) d1 d2 ->
  sorted_range (pi + 1) high d2 d3 ->
  sorted_range low high data d3.
Proof.
  intros Hlow (Hpi & Hlen1 & Hperm1 & Hsame1 & Hwin1 & pv & _ & Hpv & Hlt & Hge)
    (Hlen2 & Hperm2 & Hsame2 & Hwin2 & Hord2)
    (Hlen3 & Hperm3 & Hsame3 & Hwin3 & Hord3).
  replace (pi - 1 + 1) with pi in Hwin2 by lia.
  assert (Hlt3 : all_in (fun v => v < pv) low pi d3).
  { eapply all_in_same; [exact Hsame3|lia|]. apply Hwin2. exact Hlt. }
  assert (Hge3 : all_in (fun v => pv <= v) (pi + 1) (high + 1) d3).
  { apply Hwin3. eapply all_in_same; [exact Hsame2|lia|]. exact Hge. }
  assert (Hpv3 : d3 !! Z.to_nat pi = Some pv).
  { rewrite Hsame3, Hsame2 by lia. exact Hpv. }
  repeat split.
  - congruence.
  - rewrite Hperm3, Hperm2. exact Hperm1.
  - eapply same_outside_trans; [exact Hsame1|].
    eapply same_outside_trans; eapply same_outside_weaken; [| |exact Hsame2| | |exact Hsame3]; lia.
  - intros P HP k v Hk Hv.
    destruct (Z.lt_trichotomy (Z.of_nat k) pi) as [Hc|[Hc|Hc]].
    + rewrite Hsame3 in Hv by lia.
      apply (Hwin2 P) with (k := k); [|lia|exact Hv].
      intros k' v' Hk' Hv'. apply (Hwin1 P HP k' v'); [lia|exact Hv'].
    + rewrite Hsame3, Hsame2 in Hv by lia.
      apply (Hwin1 P HP k v); [lia|exact Hv].
    + apply (Hwin3 P) with (k := k); [|lia|exact Hv].
      intros k' v' Hk' Hv'. rewrite Hsame2 in Hv' by lia.
      apply (Hwin1 P HP k' v'); [lia|exact Hv'].
  - intros a b x y Ha Hab Hb Hx Hy.
    assert (Hxle : Z.of_nat a <= pi -> x <= pv).
    { intros Hc. destruct (decide (Z.of_nat a = pi)) as [Heq|Hne].
      - rewrite <- Heq, Nat2Z.id in Hpv3. simplify_eq. lia.
      - assert (x < pv) by (apply (Hlt3 a x); [lia|exact Hx]). lia. }
    assert (Hyge : pi <= Z.of_nat b -> pv <= y).
    { intros Hc. destruct (decide (Z.of_nat b = pi)) as [Heq|Hne].
      - rewrite <- Heq, Nat2Z.id in Hpv3. simplify_eq. lia.
      - apply (Hge3 b y); [lia|exact Hy]. }
    destruct (Z.lt_trichotomy (Z.of_nat b) pi) as [Hc|[Hc|Hc]]; [|lia|].
    + rewrite Hsame3 in Hx, Hy by lia. apply (Hord2 a b x y); auto; lia.
    + destruct (Z.le_gt_cases (Z.of_nat a) pi) as [Hc'|Hc']; [lia|].
      apply (Hord3 a b x y); auto; lia.
Qed.

Lemma quicksort_sorts fuel : forall (data : vec) low high,
  0 <= low -> low <= high + 1 -> high < size data -> high < INT_MAX ->
  high - low <= Z.of_nat fuel ->
  exists r, QuickSort.quicksort fuel data low high = Ok r /\ sorted_range low high data r.
Proof.
  induction fuel as [|fuel IH]; intros data low high Hlow Hle Hhigh Hmax Hfuel.
  - exists data. split; [apply quicksort_trivial; lia|apply sorted_range_trivial; lia].
  - destruct (Z.le_gt_cases high low) as [Hc|Hc].
    { exists data. split; [apply quicksort_trivial; lia|apply sorted_range_trivial; lia]. }
    rewrite quicksort_unfold. destruct (Z.ltb_spec low high); [|lia].
    rewrite partition_refines by lia.
    destruct (partition_spec data low high) as [d1 pi] eqn:Hspec. simpl mbind.
    apply partition_spec_partitioned in Hspec; [|lia|lia].
    pose proof Hspec as (Hpi & Hlen1 & _).
    rewrite (int_small (pi - 1)), (int_small (pi + 1)) by lia.
    destruct (IH d1 low (pi - 1)) as (d2 & -> & Hd2); try (unfold size in *; lia).
    simpl mbind. pose proof Hd2 as (Hlen2 & _).
    destruct (IH d2 (pi + 1) high) as (d3 & -> & Hd3); try (unfold size in *; lia).
    exists d3. split; [reflexivity|].
    eapply sorted_range_combine; eauto.
Qed.

Lemma quick_sort_high (data : vec) :
  size data <= INT_MAX -> wrap_int (wrap_size (size data - 1)) = size data - 1.
Proof.
  unfold INT_MAX. intros H. assert (0 <= size data) by (unfold size; lia).
  destruct (decide (size data = 0)) as [->|Hne]; [reflexivity|].
  rewrite wrap_size_small by lia. apply int_small. unfold INT_MAX. lia.
Qed.

Lemma quick_sort_sorts (data : vec) :
  size data <= INT_MAX ->
  exists r, QuickSort.sort data = Ok r /\ r ≡ₚ data /\ ordered_from 0 r.
Proof.
  intros H. unfold QuickSort.sort. rewrite quick_sort_high by assumption.
  destruct (quicksort_sorts (length data) data 0 (size data - 1))
    as (r & Hr & Hlen & Hperm & _ & _ & Hord); try (unfold size in *; lia).
  exists r. repeat split; auto.
  intros a b x y Hab _ Hx Hy. apply (Hord a b x y); auto; try lia.
  apply lookup_lt_Some in Hy. unfold size. lia.
Qed.

Lemma bubble_sort_sorts (data : vec) :
  vector_wf data ->
  exists r, BubbleSort.sort data = Ok r /\ r ≡ₚ data /\ ordered_from 0 r.
Proof.
  intros Hwf. exists (bubble_passes (length data) 0 data).
  split; [apply bubble_sort_refines; exact Hwf|].
  split; [apply bubble_passes_perm|apply bubble_passes_sorted].
Qed.

(** * QuickSort beyond the range of [int] *)

Lemma at_index_cases (data : vec) (z : Z) :
  (exists x, at_index data z = Ok x /\ 0 <= z < size data) \/ at_index data z = Fault.
Proof.
  destruct (at_index data z) eqn:E; [left|right; reflexivity|].
  - apply at_index_inv in E as [H _]. eauto.
  - unfold at_index in E. destruct (_ && _); [destruct (data !! _)|]; discriminate.
Qed.

(** A negative [int] converts to a [size_type] beyond any vector. *)
Lemma wrap_size_negative (z : Z) :
  INT_MIN <= z < 0 -> wrap_size z = z + 18446744073709551616.
Proof.
  unfold INT_MIN, wrap_size. intros H.
  rewrite <- (Z_mod_plus_full z 1 18446744073709551616).
  apply Z.mod_small. lia.
Qed.

Lemma at_index_negative (data : vec) (z : Z) :
  vector_wf data -> INT_MIN <= z < 0 -> at_index data (wrap_size z) = Fault.
Proof.
  unfold vector_wf, PTRDIFF_MAX. intros Hwf Hz.
  apply at_index_Fault. rewrite wrap_size_negative by assumption.
  unfold INT_MIN in Hz. lia.
Qed.

Lemma partition_negative_low (data : vec) low high :
  vector_wf data -> INT_MIN <= low < 0 -> low < high ->
  QuickSort.partition data low high = Fault.
Proof.
  intros Hwf Hlow Hlt. unfold QuickSort.partition.
  destruct (at_index_cases data (wrap_size high)) as [(pv & -> & Hh)| ->]; [|reflexivity].
  simpl mbind. unfold size in Hh.
  destruct (length data) as [|n] eqn:Hlen; [lia|].
  rewrite partition_loop_unfold. destruct (Z.ltb_spec low high); [|lia].
  rewrite at_index_negative by assumption. reflexivity.
Qed.

Lemma quicksort_negative_low fuel (data : vec) low high :
  vector_wf data -> INT_MIN <= low < 0 -> low < high ->
  QuickSort.quicksort (S fuel) data low high = Fault.
Proof.
  intros Hwf Hlow Hlt. rewrite quicksort_unfold.
  destruct (Z.ltb_spec low high); [|lia].
  rewrite partition_negative_low by assumption. reflexivity.
Qed.

(** On a vector whose last element is strictly the largest the scan
    leaves everything in place and the pivot stays at [high]. *)
Lemma partition_spec_last_max (l : vec) (m : Z) :
  Forall (fun x => x < m) l ->
  partition_spec (l ++ [m]) 0 (size l) = (l ++ [m], size l).
Proof.
  intros Hl. set (data := l ++ [m]). unfold size.
  assert (Hlen : length data = S (length l)).
  { unfold data. rewrite length_app. simpl. lia. }
  assert (Hpv : data !! Z.to_nat (Z.of_nat (length l)) = Some m).
  { unfold data. rewrite Nat2Z.id, lookup_app_r by lia.
    rewrite Nat.sub_diag. reflexivity. }
  unfold partition_spec. rewrite (elem_lookup _ _ _ Hpv).
  destruct (foldl _ _ _) as [d i] eqn:Hscan.
  rewrite Z.sub_0_r in Hscan.
  eapply (scan_invariant (fun d i j => d = data /\ i = j - 1) m (Z.of_nat (length l))) in Hscan.
  - destruct Hscan as ((-> & ->) & _).
    replace (Z.of_nat (length l) - 1 + 1) with (Z.of_nat (length l)) by lia.
    rewrite exchange_lswap by (unfold size; lia). rewrite lswap_same. reflexivity.
  - intros d' i' j v (-> & ->) _ _ _ _ _.
    replace (j - 1 + 1) with j by lia. rewrite lswap_same. split; [reflexivity|lia].
  - intros d' i' j v (-> & ->) Hi Hj _ Hv Hle. exfalso.
    unfold data in Hv. rewrite lookup_app_l in Hv by lia.
    pose proof (Forall_lookup_1 _ _ _ _ Hl Hv) as Hlt. simpl in Hlt. lia.
  - lia.
  - lia.
  - unfold size. lia.
  - split; [reflexivity|lia].
Qed.

(** With 2^31 elements, the last one strictly the largest, [pi + 1]
    overflows in the outermost call and the second recursive call reads
    [data[INT_MIN]]. *)
Lemma quick_sort_last_max_faults (l : vec) (m : Z) :
  size l = INT_MAX -> Forall (fun x => x < m) l ->
  QuickSort.sort (l ++ [m]) = Fault.
Proof.
  intros Hl Hmax. set (data := l ++ [m]).
  assert (Hlen : length data = S (length l)).
  { unfold data. rewrite length_app. simpl. lia. }
  assert (Hsize : size data = INT_MAX + 1).
  { unfold size in *. rewrite Hlen. lia. }
  assert (Hwf : vector_wf data).
  { unfold vector_wf. rewrite Hsize. unfold INT_MAX, PTRDIFF_MAX. lia. }
  unfold QuickSort.sort. rewrite Hsize, Hlen.
  change (wrap_int (wrap_size (INT_MAX + 1 - 1))) with INT_MAX.
  rewrite quicksort_unfold. change (0 <? INT_MAX) with true. cbv iota.
  rewrite partition_refines by (rewrite ?Hsize; unfold INT_MAX; lia).
  rewrite <- Hl. unfold data. rewrite (partition_spec_last_max l m Hmax). fold data. rewrite Hl.
  simpl mbind.
  change (wrap_int (INT_MAX - 1)) with (INT_MAX - 1).
  change (wrap_int (INT_MAX + 1)) with INT_MIN.
  destruct (quicksort_sorts (length l) data 0 (INT_MAX - 1)) as (d2 & -> & Hlen2 & _);
    try (rewrite ?Hsize; unfold size, INT_MAX in *; lia).
  simpl mbind.
  destruct (length l) as [|k'] eqn:Hk; [unfold size, INT_MAX in Hl; lia|].
  apply quicksort_negative_low.
  - eapply vector_wf_length; [exact Hlen2|exact Hwf].
  - int_lia.
  - int_lia.
Qed.

(** With 2^31 + 1 elements, [data.size() - 1] converts to [INT_MIN] and
    the guard of [quicksort] fails at once. *)
Lemma quick_sort_too_long (data : vec) :
  size data = INT_MAX + 2 -> QuickSort.sort data = Ok data.
Proof.
  intros Hsize. unfold QuickSort.sort. rewrite Hsize.
  change (wrap_int (wrap_size (INT_MAX + 2 - 1))) with INT_MIN.
  apply quicksort_trivial. int_lia.
Qed.

Lemma int_max_nat : Z.of_nat (Z.to_nat INT_MAX) = INT_MAX.
Proof. apply Z2Nat.id. discriminate. Qed.

Lemma long_sorted_faults : QuickSort.sort long_sorted = Fault.
Proof.
  unfold long_sorted. apply quick_sort_last_max_faults.
  - unfold size. rewrite length_replicate. exact int_max_nat.
  - apply Forall_replicate. reflexivity.
Qed.

Lemma size_cons2 (x y : Z) (l : vec) : size (x :: y :: l) = Z.of_nat (length l) + 2.
Proof. unfold size. cbn [length]. lia. Qed.

Lemma size_long_unsorted : size long_unsorted = INT_MAX + 2.
Proof.
  unfold long_unsorted. rewrite size_cons2, length_replicate, int_max_nat. reflexivity.
Qed.

Lemma long_unsorted_unchanged : QuickSort.sort long_unsorted = Ok long_unsorted.
Proof. exact (quick_sort_too_long _ size_long_unsorted). Qed.

Lemma long_unsorted_not_ordered : ~ adjacent_ordered long_unsorted.
Proof.
  intros H. pose proof (H 0%nat 1 0 eq_refl eq_refl) as H'. apply H'. reflexivity.
Qed.

Lemma long_unsorted_wf : vector_wf long_unsorted.
Proof. unfold vector_wf. rewrite size_long_unsorted. discriminate. Qed.

Lemma size_long_sorted : size long_sorted = INT_MAX + 1.
Proof.
  unfold long_sorted, size. rewrite length_app, length_replicate, Nat2Z.inj_add, int_max_nat.
  reflexivity.
Qed.

Lemma long_sorted_wf : vector_wf long_sorted.
Proof. unfold vector_wf. rewrite size_long_sorted. discriminate. Qed.

(** Whatever the bounds, a call that completes has only exchanged
    elements. *)
Lemma partition_loop_perm fuel : forall (data : vec) pivot i j high d i',
  QuickSort.partition_loop fuel data pivot i j high = Ok (d, i') -> d ≡ₚ data.
Proof.
  induction fuel as [|fuel IH]; intros data pivot i j high d i' Hrun;
    rewrite partition_loop_unfold in Hrun;
    (destruct (j <? high); [|injection Hrun as <- <-; reflexivity]).
  - discriminate.
  - apply bind_Ok_inv in Hrun as (x & _ & Hrun).
    destruct (x <? pivot).
    + apply bind_Ok_inv in Hrun as (d1 & Hswap & Hrun).
      apply swap_inv in Hswap as (_ & _ & ->).
      apply IH in Hrun. rewrite Hrun. apply lswap_perm.
    + apply IH in Hrun. exact Hrun.
Qed.

Lemma partition_perm (data : vec) low high d pi :
  QuickSort.partition data low high = Ok (d, pi) -> d ≡ₚ data.
Proof.
  unfold QuickSort.partition. intros Hrun.
  apply bind_Ok_inv in Hrun as (pv & _ & Hrun).
  apply bind_Ok_inv in Hrun as ([d1 i] & Hloop & Hrun).
  apply bind_Ok_inv in Hrun as (d2 & Hswap & Hrun).
  injection Hrun as <- <-.
  apply swap_inv in Hswap as (_ & _ & ->).
  rewrite lswap_perm. eapply partition_loop_perm. exact Hloop.
Qed.

Lemma quicksort_perm fuel : forall (data : vec) low high r,
  QuickSort.quicksort fuel data low high = Ok r -> r ≡ₚ data.
Proof.
  induction fuel as [|fuel IH]; intros data low high r Hrun;
    rewrite quicksort_unfold in Hrun;
    (destruct (low <? high); [|injection Hrun as <-; reflexivity]).
  - discriminate.
  - apply bind_Ok_inv in Hrun as ([d1 pi] & Hpart & Hrun).
    apply bind_Ok_inv in Hrun as (d2 & Hrec1 & Hrec2).
    apply IH in Hrec2. apply IH in Hrec1. apply partition_perm in Hpart.
    rewrite Hrec2, Hrec1. exact Hpart.
Qed.

(** * The runner: parsing the line *)

Lemma isspace_not_digit c : isspace c = true -> isdigit c = false.
Proof.
  destruct c as [[] [] [] [] [] [] [] []]; vm_compute; congruence.
Qed.

Lemma skip_ws_cases s : skip_ws s = [] \/ token_start (skip_ws s).
Proof.
  induction s as [|c s IH]; simpl; [left; reflexivity|].
  destruct (isspace c) eqn:E; [exact IH|]. right. simpl. exact E.
Qed.

Lemma skip_ws_length s : (length (skip_ws s) <= length s)%nat.
Proof.
  induction s as [|c s IH]; simpl; [lia|].
  destruct (isspace c); simpl; lia.
Qed.

Lemma skip_ws_start s : token_start s -> skip_ws s = s.
Proof. destruct s as [|c s]; simpl; [tauto|]. intros ->. reflexivity. Qed.

Lemma skip_ws_idem s : skip_ws (skip_ws s) = skip_ws s.
Proof.
  destruct (skip_ws_cases s) as [->|H]; [reflexivity|]. apply skip_ws_start. exact H.
Qed.

Lemma extract_int_skip_ws s : extract_int (skip_ws s) = extract_int s.
Proof. unfold extract_int. rewrite skip_ws_idem. reflexivity. Qed.


Lemma read_token_spec s tok rest :
  read_token s = (tok, rest) ->
  s = tok ++ rest /\ token_end rest /\ (token_start s -> token_start tok).
Proof.
  revert tok rest. induction s as [|c s IH]; intros tok rest H; simpl in H.
  - injection H as <- <-. simpl. tauto.
  - destruct (isspace c) eqn:E.
    + injection H as <- <-. simpl. repeat split; [exact E|congruence].
    + destruct (read_token s) as [tok' rest'] eqn:E'.
      injection H as <- <-.
      destruct (IH tok' rest' eq_refl) as (-> & Hend & _).
      repeat split; [exact Hend|]. intros _. simpl. exact E.
Qed.

Lemma read_digits_app rest : token_end rest ->
  forall t acc m r, read_digits acc t = (m, r) -> read_digits acc (t ++ rest) = (m, r ++ rest).
Proof.
  intros Hend. induction t as [|c t IH]; intros acc m r H; simpl in *.
  - injection H as <- <-. simpl. destruct rest as [|c rest]; [reflexivity|].
    simpl in *. rewrite (isspace_not_digit _ Hend). reflexivity.
  - destruct (isdigit c); [apply IH; exact H|].
    injection H as <- <-. reflexivity.
Qed.

Lemma read_digits_length t : forall acc m r,
  read_digits acc t = (m, r) -> (length r <= length t)%nat.
Proof.
  induction t as [|c t IH]; intros acc m r H; simpl in *.
  - injection H as <- <-. simpl. lia.
  - destruct (isdigit c); [apply IH in H; lia|].
    injection H as <- <-. simpl. lia.
Qed.

Lemma read_digits_progress t acc m r :
  starts_with_digit t = true -> read_digits acc t = (m, r) -> (length r < length t)%nat.
Proof.
  destruct t as [|c t]; simpl; [discriminate|]. intros -> H.
  apply read_digits_length in H. lia.
Qed.

Lemma read_sign_length s neg s1 : read_sign s = (neg, s1) -> (length s1 <= length s)%nat.
Proof.
  destruct s as [|c s]; simpl; intros H.
  - injection H as <- <-. simpl. lia.
  - destruct (Ascii.eqb c minus_sign); [|destruct (Ascii.eqb c plus_sign)];
      injection H as <- <-; simpl; lia.
Qed.

Lemma read_sign_app tok rest neg t1 :
  token_start tok -> read_sign tok = (neg, t1) -> read_sign (tok ++ rest) = (neg, t1 ++ rest).
Proof.
  destruct tok as [|c tok]; simpl; [tauto|]. intros _ H.
  destruct (Ascii.eqb c minus_sign); [|destruct (Ascii.eqb c plus_sign)];
    injection H as <- <-; reflexivity.
Qed.

Lemma starts_with_digit_app t rest :
  token_end rest -> starts_with_digit (t ++ rest) = starts_with_digit t.
Proof.
  intros Hend. destruct t as [|c t]; [|reflexivity].
  destruct rest as [|c rest]; [reflexivity|]. simpl in *. apply isspace_not_digit. exact Hend.
Qed.

(** Extraction from a token followed by the rest of the line reads what
    extraction from the token alone reads. *)
Lemma extract_int_app tok rest :
  token_start tok -> token_end rest ->
  extract_int (tok ++ rest) =
    match extract_int tok with
    | Some (v, r) => Some (v, r ++ rest)
    | None => None
    end.
Proof.
  intros Hstart Hend. unfold extract_int.
  rewrite (skip_ws_start tok) by exact Hstart.
  rewrite (skip_ws_start (tok ++ rest)) by (destruct tok; [destruct Hstart|exact Hstart]).
  destruct (read_sign tok) as [neg t1] eqn:Hsign.
  rewrite (read_sign_app _ rest _ _ Hstart Hsign).
  rewrite starts_with_digit_app by exact Hend.
  destruct (starts_with_digit t1); [|reflexivity].
  destruct (read_digits 0 t1) as [m r] eqn:Hdig.
  rewrite (read_digits_app rest Hend _ _ _ _ Hdig).
  destruct (_ && _); reflexivity.
Qed.

Lemma extract_int_progress s v rest :
  extract_int s = Some (v, rest) -> (length rest < length s)%nat.
Proof.
  unfold extract_int. intros H.
  destruct (read_sign (skip_ws s)) as [neg s1] eqn:Hsign.
  destruct (starts_with_digit s1) eqn:Hd; [|discriminate].
  destruct (read_digits 0 s1) as [m r] eqn:Hdig.
  destruct (_ && _); [|discriminate]. injection H as <- <-.
  pose proof (read_digits_progress _ _ _ _ Hd Hdig).
  pose proof (read_sign_length _ _ _ Hsign).
  pose proof (skip_ws_length s). lia.
Qed.

(** The loop stops; the budget of the model is never the reason. *)
Lemma read_numbers_total fuel : forall s,
  (length s <= fuel)%nat -> exists data, read_numbers fuel s = Ok data.
Proof.
  induction fuel as [|fuel IH]; intros s Hlen.
  - destruct s; [|simpl in Hlen; lia]. exists []. reflexivity.
  - simpl. destruct (extract_int s) as [[v rest]|] eqn:E; [|exists []; reflexivity].
    apply extract_int_progress in E.
    destruct (IH rest) as [data ->]; [lia|]. exists (v :: data). reflexivity.
Qed.

Lemma read_numbers_unfold fuel s :
  read_numbers fuel s =
    match extract_int s with
    | Some (v, rest) =>
        match fuel with
        | O => OutOfFuel
        | S fuel' => data ← read_numbers fuel' rest; Ok (v :: data)
        end
    | None => Ok []
    end.
Proof. destruct fuel; reflexivity. Qed.

Lemma tokens_unfold fuel s :
  tokens fuel s =
    match skip_ws s with
    | [] => []
    | s1 =>
        match fuel with
        | O => []
        | S fuel' => let '(tok, rest) := read_token s1 in tok :: tokens fuel' rest
        end
    end.
Proof. destruct fuel; reflexivity. Qed.

Lemma after_first_bad_unfold fuel s :
  after_first_bad fuel s =
    match skip_ws s with
    | [] => []
    | s1 =>
        match fuel with
        | O => []
        | S fuel' =>
            let '(tok, rest) := read_token s1 in
            match token_value tok with
            | Some _ => after_first_bad fuel' rest
            | None => rest
            end
        end
    end.
Proof. destruct fuel; reflexivity. Qed.

(** A budget of the length of the input is as good as any larger one. *)
Lemma read_numbers_fuel fuel1 : forall fuel2 s,
  (length s <= fuel1)%nat -> (length s <= fuel2)%nat ->
  read_numbers fuel1 s = read_numbers fuel2 s.
Proof.
  induction fuel1 as [|fuel1 IH]; intros fuel2 s H1 H2;
    rewrite (read_numbers_unfold fuel2), read_numbers_unfold;
    destruct (extract_int s) as [[v rest]|] eqn:Hext; try reflexivity;
    apply extract_int_progress in Hext; [lia|].
  destruct fuel2 as [|fuel2]; [lia|].
  rewrite (IH fuel2 rest) by lia. reflexivity.
Qed.

Lemma skip_ws_split s : exists ws, s = ws ++ skip_ws s.
Proof.
  induction s as [|c s [ws IH]]; [exists []; reflexivity|]. simpl.
  destruct (isspace c); [|exists []; reflexivity].
  exists (c :: ws). simpl. f_equal. exact IH.
Qed.

(** The first token that is not an integer stands in the line just
    before the characters [after_first_bad] returns. *)
Lemma after_first_bad_split fuel : forall s tok,
  first_bad_token (tokens fuel s) = Some tok ->
  exists before, s = before ++ tok ++ after_first_bad fuel s.
Proof.
  induction fuel as [|fuel IH]; intros s tok;
    rewrite tokens_unfold, after_first_bad_unfold;
    destruct (skip_ws_split s) as [ws Hws];
    destruct (skip_ws s) as [|c s1] eqn:Hs1; try discriminate.
  destruct (read_token (c :: s1)) as [tok0 rest0] eqn:Htok.
  apply read_token_spec in Htok as (Heq & _ & _).
  cbn [first_bad_token]. destruct (token_value tok0).
  - intros Hbad. destruct (IH rest0 tok Hbad) as [before Hbefore].
    exists (ws ++ tok0 ++ before).
    rewrite Hws, Heq, Hbefore at 1. rewrite <- !app_assoc. reflexivity.
  - intros [= <-]. exists ws. rewrite Hws, Heq at 1. reflexivity.
Qed.

Lemma read_numbers_tokens fuel : forall s,
  (length s <= fuel)%nat ->
  exists data,
    read_numbers fuel s = Ok data /\
    parse_relation (tokens fuel s) (after_first_bad fuel s) data.
Proof.
  induction fuel as [|fuel IH]; intros s Hlen.
  - destruct s; [|simpl in Hlen; lia]. exists []. split; [reflexivity|].
    split; [reflexivity|reflexivity].
  - rewrite read_numbers_unfold, tokens_unfold, after_first_bad_unfold,
      <- extract_int_skip_ws.
    pose proof (skip_ws_length s) as Hws.
    destruct (skip_ws_cases s) as [Hnil|Hstart].
    { rewrite Hnil. exists []. repeat split; reflexivity. }
    destruct (skip_ws s) as [|c s1] eqn:Hs1; [destruct Hstart|].
    destruct (read_token (c :: s1)) as [tok rest] eqn:Htok.
    apply read_token_spec in Htok as (Heq & Hend & Htokstart).
    specialize (Htokstart Hstart).
    rewrite Heq, (extract_int_app tok rest Htokstart Hend).
    assert (Hrest : (length rest <= fuel)%nat).
    { apply (f_equal length) in Heq. rewrite length_app in Heq. simpl in *.
      destruct tok; [destruct Htokstart|]. simpl in *. lia. }
    destruct (IH rest Hrest) as (data & Hdata & Hpre & Hbad).
    unfold parse_relation. cbn [numeric_prefix first_bad_token]. unfold token_value.
    destruct (extract_int tok) as [[v r]|] eqn:Hext.
    + destruct r as [|c' r].
      * rewrite app_nil_l, Hdata. exists (v :: data). split; [reflexivity|].
        split; [apply prefix_cons; exact Hpre|].
        destruct (first_bad_token (tokens fuel rest)) as [bad|]; [|congruence].
        destruct (extract_int bad) as [[w r']|]; [|congruence].
        destruct Hbad as (data' & Hdata' & ->). exists data'.
        split; [exact Hdata'|reflexivity].
      * assert (Hlen' : (length ((c' :: r) ++ rest) <= fuel)%nat).
        { apply extract_int_progress in Hext.
          apply (f_equal length) in Heq. rewrite length_app in *. simpl in *. lia. }
        destruct (read_numbers_total fuel _ Hlen') as [data' Hdata'].
        rewrite Hdata'. exists (v :: data'). split; [reflexivity|].
        split; [apply prefix_nil|]. rewrite Hext. exists data'.
        split; [|reflexivity].
        rewrite <- Hdata'. apply read_numbers_fuel; [lia|exact Hlen'].
    + exists []. split; [reflexivity|]. split; [reflexivity|].
      rewrite Hext. reflexivity.
Qed.

(** * QuickSort: the frame of a call *)

Lemma partition_Ok_bounds (data : vec) low high d pi :
  vector_wf data -> is_int low -> is_int high -> low < high ->
  QuickSort.partition data low high = Ok (d, pi) ->
  0 <= low /\ high < size data.
Proof.
  intros Hwf [Hlow _] [Hhigh Hhigh'] Hlt Hpart.
  destruct (Z.lt_ge_cases low 0) as [Hneg|Hpos].
  { rewrite partition_negative_low in Hpart by (auto; lia). discriminate. }
  split; [exact Hpos|].
  unfold QuickSort.partition in Hpart.
  apply bind_Ok_inv in Hpart as (pv & Hpv & _).
  apply at_index_inv in Hpv as [Hpv _].
  rewrite int_index in Hpv by lia. lia.
Qed.

Lemma quicksort_frame fuel : forall (data : vec) low high r,
  vector_wf data -> is_int low -> is_int high ->
  QuickSort.quicksort fuel data low high = Ok r ->
  same_outside low high data r /\ length r = length data.
Proof.
  induction fuel as [|fuel IH]; intros data low high r Hwf Hlow Hhigh Hrun;
    rewrite quicksort_unfold in Hrun;
    (destruct (Z.ltb_spec low high) as [Hlt|Hge];
     [|injection Hrun as <-; split; [apply same_outside_refl|reflexivity]]).
  - discriminate.
  - apply bind_Ok_inv in Hrun as ([d1 pi] & Hpart & Hrun).
    apply bind_Ok_inv in Hrun as (d2 & Hrec1 & Hrec2).
    destruct (partition_Ok_bounds _ _ _ _ _ Hwf Hlow Hhigh Hlt Hpart) as [Hlow0 Hhigh0].
    rewrite partition_refines in Hpart by (destruct Hhigh; lia).
    injection Hpart as Hspec.
    apply partition_spec_partitioned in Hspec as (Hpi & Hlen1 & _ & Hsame1 & _); [|lia|lia].
    destruct Hhigh as [_ Hhigh].
    rewrite int_small in Hrec1 by lia.
    apply IH in Hrec1 as [Hsame2 Hlen2];
      [|eapply vector_wf_length; eauto|exact Hlow|int_lia].
    assert (Hwf2 : vector_wf d2) by (eapply vector_wf_length; [|exact Hwf]; congruence).
    destruct (Z.eq_dec pi INT_MAX) as [->|Hne].
    + (* [pi + 1] overflows: the second call cannot complete *)
      exfalso. change (wrap_int (INT_MAX + 1)) with INT_MIN in Hrec2.
      destruct fuel as [|fuel].
      * rewrite quicksort_unfold in Hrec2.
        destruct (Z.ltb_spec INT_MIN high); [discriminate|unfold INT_MIN in *; lia].
      * rewrite quicksort_negative_low in Hrec2;
          [discriminate|exact Hwf2|int_lia|int_lia].
    + rewrite int_small in Hrec2 by lia.
      apply IH in Hrec2 as [Hsame3 Hlen3];
        [|exact Hwf2|int_lia|int_lia].
      split; [|congruence].
      eapply same_outside_trans; [exact Hsame1|].
      eapply same_outside_trans; eapply same_outside_weaken; [| |exact Hsame2| | |exact Hsame3]; lia.
Qed.

Lemma partition_frame (data : vec) low high d pi :
  vector_wf data -> is_int low -> is_int high -> low < high ->
  QuickSort.partition data low high = Ok (d, pi) ->
  same_outside low high data d /\ low <= pi <= high.
Proof.
  intros Hwf Hlow Hhigh Hlt Hpart.
  destruct (partition_Ok_bounds _ _ _ _ _ Hwf Hlow Hhigh Hlt Hpart) as [Hlow0 Hhigh0].
  rewrite partition_refines in Hpart by (destruct Hhigh; lia).
  injection Hpart as Hspec.
  apply partition_spec_partitioned in Hspec as (Hpi & _ & _ & Hsame1 & _); [|lia|lia].
  split; assumption.
Qed.

(** * QuickSort: the budget of the model is never what stops a call *)

Lemma swap_cases (data : vec) a b :
  (exists d, swap data a b = Ok d /\ length d = length data) \/ swap data a b = Fault.
Proof.
  unfold swap.
  destruct (at_index_cases data a) as [(x & -> & Ha)| ->]; [|right; reflexivity].
  destruct (at_index_cases data b) as [(y & -> & Hb)| ->]; [|right; reflexivity].
  left. eexists. split; [reflexivity|]. rewrite !length_insert. reflexivity.
Qed.

Lemma partition_cases (data : vec) low high :
  vector_wf data -> is_int low -> is_int high ->
  (exists d pi, QuickSort.partition data low high = Ok (d, pi)) \/
  QuickSort.partition data low high = Fault.
Proof.
  intros Hwf Hlow Hhigh.
  destruct (Z.lt_ge_cases low high) as [Hlt|Hge].
  - destruct (Z.lt_ge_cases low 0) as [Hneg|Hpos].
    { right. apply partition_negative_low; auto. destruct Hlow. lia. }
    destruct (Z.lt_ge_cases high (size data)) as [Hin|Hout].
    + left. rewrite partition_refines by (destruct Hhigh; lia).
      destruct (partition_spec data low high) as [d pi]. eauto.
    + right. unfold QuickSort.partition.
      rewrite int_index by (destruct Hhigh; lia).
      rewrite at_index_Fault by exact Hout. reflexivity.
  - unfold QuickSort.partition.
    destruct (at_index_cases data (wrap_size high)) as [(pv & -> & _)| ->]; [|right; reflexivity].
    simpl mbind. rewrite partition_loop_unfold.
    destruct (Z.ltb_spec low high); [lia|]. simpl mbind.
    destruct (swap_cases data (wrap_size (wrap_int (wrap_int (low - 1) + 1))) (wrap_size high))
      as [(d & -> & _)| ->]; [left; eauto|right; reflexivity].
Qed.

Lemma quicksort_fuel fuel : forall (data : vec) low high,
  vector_wf data -> is_int low -> is_int high ->
  high - low < Z.of_nat fuel ->
  QuickSort.quicksort fuel data low high <> OutOfFuel.
Proof.
  induction fuel as [|fuel IH]; intros data low high Hwf Hlow Hhigh Hfuel;
    rewrite quicksort_unfold;
    (destruct (Z.ltb_spec low high) as [Hlt|Hge]; [|discriminate]).
  - lia.
  - destruct (partition_cases data low high Hwf Hlow Hhigh) as [(d1 & pi & Hpart)|Hpart];
      [|rewrite Hpart; discriminate].
    rewrite Hpart. simpl mbind.
    destruct (partition_frame _ _ _ _ _ Hwf Hlow Hhigh Hlt Hpart) as [_ Hpi].
    destruct (partition_Ok_bounds _ _ _ _ _ Hwf Hlow Hhigh Hlt Hpart) as [Hlow0 Hhigh0].
    apply partition_perm in Hpart as Hperm1.
    assert (Hwf1 : vector_wf d1)
      by (eapply vector_wf_length; [apply Permutation_length; exact Hperm1|exact Hwf]).
    destruct Hhigh as [_ Hhigh].
    rewrite (int_small (pi - 1)) by lia.
    destruct (QuickSort.quicksort fuel d1 low (pi - 1)) as [d2| |] eqn:Hrec1; [|discriminate|].
    + simpl mbind.
      assert (Hwf2 : vector_wf d2).
      { apply quicksort_perm in Hrec1.
        eapply vector_wf_length; [apply Permutation_length; exact Hrec1|exact Hwf1]. }
      destruct (Z.eq_dec pi INT_MAX) as [->|Hne].
      * change (wrap_int (INT_MAX + 1)) with INT_MIN.
        destruct fuel as [|fuel]; [lia|].
        rewrite quicksort_negative_low;
          [discriminate|exact Hwf2|int_lia|int_lia].
      * rewrite (int_small (pi + 1)) by lia.
        apply IH; [exact Hwf2|int_lia
                  |int_lia|lia].
    + exfalso. revert Hrec1. apply IH;
        [exact Hwf1|exact Hlow|int_lia|lia].
Qed.

Lemma wrap_int_le (z : Z) : 0 <= z -> wrap_int z <= z.
Proof.
  intros Hz. unfold wrap_int.
  pose proof (Z.mod_pos_bound (z + 2147483648) 4294967296 eq_refl).
  pose proof (Z.mod_le (z + 2147483648) 4294967296). lia.
Qed.

Lemma quick_sort_fuel (data : vec) :
  vector_wf data -> QuickSort.sort data <> OutOfFuel.
Proof.
  intros Hwf. unfold QuickSort.sort.
  assert (Hhigh : is_int (wrap_int (wrap_size (size data - 1))) /\
                  wrap_int (wrap_size (size data - 1)) < size data).
  { unfold vector_wf, PTRDIFF_MAX in Hwf. assert (0 <= size data) by (unfold size; lia).
    destruct (decide (size data = 0)) as [->|Hne]; [split; [vm_compute; split; discriminate|reflexivity]|].
    rewrite wrap_size_small by lia.
    pose proof (wrap_int_le (size data - 1)).
    unfold is_int, INT_MIN, INT_MAX, wrap_int in *.
    pose proof (Z.mod_pos_bound (size data - 1 + 2147483648) 4294967296 eq_refl). lia. }
  destruct Hhigh as [Hint Hlt].
  apply quicksort_fuel; auto.
  - int_lia.
  - unfold size in *. lia.
Qed.

(** * BubbleSort: the trace of the passes *)

Lemma trace_inner_unfold fuel (data : vec) i j :
  BubbleTrace.inner_loop fuel data i j =
    if j <? wrap_size (wrap_size (size data - i) - 1) then
      match fuel with
      | O => OutOfFuel
      | S fuel' =>
          a ← at_index data j;
          b ← at_index data (wrap_size (j + 1));
          '(data', called) ←
            (if a >? b
             then data' ← swap data j (wrap_size (j + 1)); Ok (data', true)
             else Ok (data, false));
          '(data'', steps) ← BubbleTrace.inner_loop fuel' data' i (wrap_size (j + 1));
          Ok (data'', Step j a b called :: steps)
      end
    else Ok (data, []).
Proof. destruct fuel; reflexivity. Qed.

(** The body of the traced loop: what it leaves and the flag it logs.
    The flag is [true] in the branch that swaps, which is taken exactly
    when [a > b]. *)
Lemma trace_body (data : vec) (j : nat) a b :
  data !! j = Some a -> data !! S j = Some b ->
  (if a >? b
   then data' ← swap data (Z.of_nat j) (Z.of_nat (S j)); Ok (data', true)
   else Ok (data, false))
  = Ok (compare_swap data j, a >? b).
Proof.
  intros Ha Hb. unfold compare_swap. rewrite Ha, Hb.
  destruct (a >? b); [|reflexivity].
  rewrite swap_Ok by (eapply lookup_lt_Some; eauto). reflexivity.
Qed.

Lemma trace_inner_refines k : forall fuel (data : vec) (i j : nat),
  vector_wf data -> (i < length data)%nat ->
  (j + k = length data - i - 1)%nat -> (k <= fuel)%nat ->
  exists steps,
    BubbleTrace.inner_loop fuel data (Z.of_nat i) (Z.of_nat j) = Ok (bubble_pass k j data, steps) /\
    pos <$> steps = seqZ (Z.of_nat j) (Z.of_nat k) /\
    Forall step_ok steps.
Proof.
  induction k as [|k IH]; intros fuel data i j Hwf Hi Hjk Hfuel;
    rewrite trace_inner_unfold, bubble_bound by assumption.
  - destruct (Z.ltb_spec (Z.of_nat j) (Z.of_nat (length data - i - 1))); [lia|].
    exists []. repeat split. constructor.
  - destruct (Z.ltb_spec (Z.of_nat j) (Z.of_nat (length data - i - 1))); [|lia].
    destruct fuel as [|fuel]; [lia|].
    destruct (lookup_lt_is_Some_2 data j) as [a Ha]; [lia|].
    destruct (lookup_lt_is_Some_2 data (S j)) as [b Hb]; [lia|].
    rewrite (size_t_succ data j) by (auto; lia).
    rewrite (at_index_Ok _ _ _ Ha), (at_index_Ok _ _ _ Hb). simpl mbind.
    rewrite (trace_body _ _ _ _ Ha Hb). simpl mbind.
    destruct (IH fuel (compare_swap data j) i (S j)) as (steps & -> & Hpos & Hok).
    + eapply vector_wf_length; [apply length_compare_swap|exact Hwf].
    + rewrite length_compare_swap. exact Hi.
    + rewrite length_compare_swap. lia.
    + lia.
    + exists (Step (Z.of_nat j) a b (a >? b) :: steps). repeat split.
      * rewrite fmap_cons, Hpos, (seqZ_cons (Z.of_nat j)) by lia.
        cbn [pos]. f_equal. f_equal; lia.
      * constructor; [reflexivity|exact Hok].
Qed.

Lemma trace_outer_unfold fuel (data : vec) i :
  BubbleTrace.outer_loop fuel data i =
    if i <? size data then
      match fuel with
      | O => OutOfFuel
      | S fuel' =>
          '(data', steps) ← BubbleTrace.inner_loop (length data) data i 0;
          '(data'', passes) ← BubbleTrace.outer_loop fuel' data' (wrap_size (i + 1));
          Ok (data'', steps :: passes)
      end
    else Ok (data, []).
Proof. destruct fuel; reflexivity. Qed.

Lemma trace_outer_refines k : forall fuel (data : vec) (i : nat),
  vector_wf data -> (i + k = length data)%nat -> (k <= fuel)%nat ->
  exists passes,
    BubbleTrace.outer_loop fuel data (Z.of_nat i) = Ok (bubble_passes k i data, passes) /\
    length passes = k /\
    (forall (p : nat) steps, passes !! p = Some steps ->
       pos <$> steps = seqZ 0 (size data - Z.of_nat (i + p) - 1)) /\
    Forall (Forall step_ok) passes.
Proof.
  induction k as [|k IH]; intros fuel data i Hwf Hik Hfuel;
    rewrite trace_outer_unfold; unfold size.
  - destruct (Z.ltb_spec (Z.of_nat i) (Z.of_nat (length data))); [lia|].
    exists []. repeat split; [|constructor]. intros p steps Hp. discriminate.
  - destruct (Z.ltb_spec (Z.of_nat i) (Z.of_nat (length data))); [|lia].
    destruct fuel as [|fuel]; [lia|].
    change 0 with (Z.of_nat 0) at 1.
    destruct (trace_inner_refines (length data - i - 1) (length data) data i 0%nat)
      as (steps & -> & Hpos & Hok); auto; try lia.
    simpl mbind. rewrite (size_t_succ data i) by (auto; lia).
    destruct (IH fuel (bubble_pass (length data - i - 1) 0 data) (S i))
      as (passes & -> & Hlen & Hposs & Hoks).
    + eapply vector_wf_length; [apply length_bubble_pass|exact Hwf].
    + rewrite length_bubble_pass. lia.
    + lia.
    + exists (steps :: passes). repeat split.
      * cbn [length]. rewrite Hlen. reflexivity.
      * intros [|p] steps' Hp; cbn in Hp.
        -- injection Hp as <-. rewrite Hpos. f_equal. lia.
        -- rewrite (Hposs p steps' Hp). unfold size. rewrite length_bubble_pass.
           f_equal. lia.
      * constructor; assumption.
Qed.


(** * The properties of the specification *)

(** ** Concrete scenarios (section 8 of the specification) *)

Example scenario_bubble : BubbleSort.sort [5; 3; 8; 1; 9; 2] = Ok [1; 2; 3; 5; 8; 9].
Proof. vm_compute. reflexivity. Qed.

Example scenario_quick : QuickSort.sort [5; 3; 8; 1; 9; 2] = Ok [1; 2; 3; 5; 8; 9].
Proof. vm_compute. reflexivity. Qed.

Example scenario_equal :
  BubbleSort.sort [4; 4; 4] = Ok [4; 4; 4] /\ QuickSort.sort [4; 4; 4] = Ok [4; 4; 4].
Proof. split; vm_compute; reflexivity. Qed.

Example scenario_run :
  main "5 3 8 1 9 2" 2 17 =
    Ok (Outcome
          (prompt_numbers +:+ prompt_choice +:+ "Sorted Data: 1 2 3 5 8 9 " +:+ newline +:+
           "Time taken: 17 microseconds" +:+ newline)
          0 [(Quick, [5; 3; 8; 1; 9; 2])]).
Proof. vm_compute. reflexivity. Qed.

Example scenario_empty_line :
  main "" 1 17 =
    Ok (Outcome
          (prompt_numbers +:+ prompt_choice +:+ "Sorted Data: " +:+ newline +:+
           "Time taken: 17 microseconds" +:+ newline)
          0 [(Bubble, [])]).
Proof. vm_compute. reflexivity. Qed.

(** ** Permutation *)

(** C1 (amended).  [BubbleSort::sort] ends with a permutation of its
    input for every vector.  [QuickSort::sort] does so for every vector of
    at most [INT_MAX] (2^31 - 1) elements; on a longer vector its [int]
    bounds cannot index the data, and then its result, whenever the call
    completes, is still a permutation of the input (a call that does not
    complete has read outside the vector: the budget of the model does
    not run out). *)
Theorem sort_permutation (data : vec) :
  vector_wf data ->
  (exists r, BubbleSort.sort data = Ok r /\ r ≡ₚ data) /\
  (size data <= INT_MAX -> exists r, QuickSort.sort data = Ok r /\ r ≡ₚ data) /\
  (forall r, QuickSort.sort data = Ok r -> r ≡ₚ data) /\
  QuickSort.sort data <> OutOfFuel.
Proof.
  intros Hwf. split; [|split; [|split]].
  - destruct (bubble_sort_sorts data Hwf) as (r & Hr & Hperm & _). eauto.
  - intros Hsize. destruct (quick_sort_sorts data Hsize) as (r & Hr & Hperm & _). eauto.
  - intros r Hr. unfold QuickSort.sort in Hr. eapply quicksort_perm. exact Hr.
  - apply quick_sort_fuel. exact Hwf.
Qed.

Lemma sort_permutation_witness :
  (exists r, BubbleSort.sort [5; 3; 8; 1; 9; 2] = Ok r /\ r ≡ₚ [5; 3; 8; 1; 9; 2]) /\
  (exists r, QuickSort.sort [5; 3; 8; 1; 9; 2] = Ok r /\ r ≡ₚ [5; 3; 8; 1; 9; 2]).
Proof.
  assert (Hwf : vector_wf [5; 3; 8; 1; 9; 2]) by (vm_compute; discriminate).
  destruct (sort_permutation [5; 3; 8; 1; 9; 2] Hwf) as (Hbubble & Hquick & _).
  split; [exact Hbubble|]. apply Hquick. vm_compute. discriminate.
Defined.

(** C1 as stated fails: on 2^31 - 1 zeros followed by a one,
    [QuickSort::sort] has no result that is a permutation of the input
    (the run reads outside the vector). *)
Lemma quick_sort_permutation_counterexample :
  vector_wf long_sorted /\
  ~ (exists r, QuickSort.sort long_sorted = Ok r /\ r ≡ₚ long_sorted).
Proof.
  split; [exact long_sorted_wf|].
  intros (r & Hr & _). rewrite long_sorted_faults in Hr. discriminate.
Qed.

(** ** Order *)

(** C2 (amended).  After [BubbleSort::sort], for every vector, and after
    [QuickSort::sort], for every vector of at most [INT_MAX] (2^31 - 1)
    elements, every adjacent pair [(a, b)] of the result has [a <= b]. *)
Theorem sort_ordered (data : vec) :
  vector_wf data ->
  (exists r, BubbleSort.sort data = Ok r /\ adjacent_ordered r) /\
  (size data <= INT_MAX -> exists r, QuickSort.sort data = Ok r /\ adjacent_ordered r).
Proof.
  intros Hwf. split.
  - destruct (bubble_sort_sorts data Hwf) as (r & Hr & _ & Hord).
    exists r. split; [exact Hr|apply ordered_from_adjacent; exact Hord].
  - intros Hsize. destruct (quick_sort_sorts data Hsize) as (r & Hr & _ & Hord).
    exists r. split; [exact Hr|apply ordered_from_adjacent; exact Hord].
Qed.

Lemma sort_ordered_witness :
  (exists r, BubbleSort.sort [5; 3; 8; 1; 9; 2] = Ok r /\ adjacent_ordered r) /\
  (exists r, QuickSort.sort [5; 3; 8; 1; 9; 2] = Ok r /\ adjacent_ordered r).
Proof.
  assert (Hwf : vector_wf [5; 3; 8; 1; 9; 2]) by (vm_compute; discriminate).
  destruct (sort_ordered [5; 3; 8; 1; 9; 2] Hwf) as (Hbubble & Hquick).
  split; [exact Hbubble|]. apply Hquick. vm_compute. discriminate.
Defined.

(** C2 as stated fails: on a one followed by 2^31 zeros,
    [QuickSort::sort] returns the vector as it was, and its first two
    elements are out of order. *)
Lemma quick_sort_order_counterexample :
  vector_wf long_unsorted /\
  QuickSort.sort long_unsorted = Ok long_unsorted /\
  ~ adjacent_ordered long_unsorted.
Proof.
  split; [exact long_unsorted_wf|].
  split; [exact long_unsorted_unchanged|exact long_unsorted_not_ordered].
Qed.

(** ** Equivalence of the two routines *)

(** C3 (amended).  On every vector of at most [INT_MAX] (2^31 - 1)
    elements [BubbleSort::sort] and [QuickSort::sort] end with the same
    vector. *)
Theorem sorts_agree (data : vec) :
  size data <= INT_MAX ->
  exists r, BubbleSort.sort data = Ok r /\ QuickSort.sort data = Ok r.
Proof.
  intros Hsize.
  assert (Hwf : vector_wf data) by (unfold vector_wf, INT_MAX, PTRDIFF_MAX in *; lia).
  destruct (bubble_sort_sorts data Hwf) as (r1 & Hr1 & Hperm1 & Hord1).
  destruct (quick_sort_sorts data Hsize) as (r2 & Hr2 & Hperm2 & Hord2).
  exists r1. split; [exact Hr1|]. rewrite Hr2. f_equal.
  apply (StronglySorted_unique Z.le).
  - apply ordered_from_StronglySorted. exact Hord2.
  - apply ordered_from_StronglySorted. exact Hord1.
  - rewrite Hperm2, Hperm1. reflexivity.
Qed.

Lemma sorts_agree_witness :
  exists r, BubbleSort.sort [5; 3; 8; 1; 9; 2] = Ok r /\ QuickSort.sort [5; 3; 8; 1; 9; 2] = Ok r.
Proof. apply (sorts_agree [5; 3; 8; 1; 9; 2]). vm_compute. discriminate. Defined.

(** C3 as stated fails: on a one followed by 2^31 zeros the two routines
    end with different vectors ([BubbleSort::sort] orders it,
    [QuickSort::sort] leaves it as it was). *)
Lemma sorts_differ_counterexample :
  vector_wf long_unsorted /\
  ~ (exists r, BubbleSort.sort long_unsorted = Ok r /\ QuickSort.sort long_unsorted = Ok r).
Proof.
  split; [exact long_unsorted_wf|].
  intros (r & Hbubble & Hquick).
  rewrite long_unsorted_unchanged in Hquick. injection Hquick as <-.
  destruct (bubble_sort_sorts long_unsorted long_unsorted_wf) as (r & Hr & _ & Hord).
  rewrite Hbubble in Hr. injection Hr as <-.
  apply long_unsorted_not_ordered. apply ordered_from_adjacent. exact Hord.
Qed.

(** ** Dispatch *)

Lemma parse_line_total (line : string) : exists data, parse_line line = Ok data.
Proof. unfold parse_line. apply read_numbers_total. lia. Qed.

(** C4.  With [data] the sequence parsed from the line: selector 1 calls
    [BubbleSort::sort] on [data] and selector 2 calls [QuickSort::sort] on
    it (and the report is made of the result); any other selector prints
    "Invalid choice.", ends with status 1, calls no sort routine and
    prints no "Sorted Data" line. *)
Theorem main_dispatch (line : string) (choice duration : Z) :
  exists data, parse_line line = Ok data /\
    main line 1 duration =
      (sorted ← BubbleSort.sort data;
       Ok (Outcome (report sorted duration) 0 [(Bubble, data)])) /\
    main line 2 duration =
      (sorted ← QuickSort.sort data;
       Ok (Outcome (report sorted duration) 0 [(Quick, data)])) /\
    (choice <> 1 -> choice <> 2 ->
     exists out, main line choice duration = Ok out /\
       stdout out = prompt_numbers +:+ prompt_choice +:+ "Invalid choice." +:+ newline /\
       status out = 1 /\ status out <> 0 /\
       sort_calls out = [] /\
       contains "Sorted Data" (stdout out) = false).
Proof.
  destruct (parse_line_total line) as [data Hdata].
  exists data. unfold main. rewrite Hdata. simpl mbind.
  split; [reflexivity|]. split; [reflexivity|]. split; [reflexivity|].
  intros H1 H2.
  destruct (Z.eqb_spec choice 1) as [|_]; [contradiction|].
  destruct (Z.eqb_spec choice 2) as [|_]; [contradiction|].
  eexists. split; [reflexivity|]. cbn [stdout status sort_calls].
  split; [reflexivity|]. split; [reflexivity|]. split; [discriminate|].
  split; [reflexivity|]. vm_compute. reflexivity.
Qed.

(** ** The partition step *)

(** C5.  For bounds [0 <= low <= high < data.size()], [partition] is the
    scan the specification describes: pivot [data[high]], boundary
    starting at [low - 1], every element of [low .. high - 1] strictly
    below the pivot exchanged to the position after the boundary, then
    the pivot exchanged to the position after the boundary, which is
    returned.  The pivot ends at the returned index, the smaller elements
    of the range before it and the others after it. *)
Theorem partition_follows_spec (data : vec) (low high : Z) :
  0 <= low <= high -> high < size data -> is_int high ->
  QuickSort.partition data low high = Ok (partition_spec data low high) /\
  partitioned low high data (partition_spec data low high).1 (partition_spec data low high).2.
Proof.
  intros Hlow Hhigh [_ Hmax]. split.
  - apply partition_refines; assumption.
  - apply partition_spec_partitioned; [assumption|assumption|].
    destruct (partition_spec data low high). reflexivity.
Qed.

Lemma partition_follows_spec_witness :
  QuickSort.partition [5; 3; 8; 1; 9; 2] 0 5 = Ok ([1; 2; 8; 5; 9; 3], 1).
Proof.
  destruct (partition_follows_spec [5; 3; 8; 1; 9; 2] 0 5) as [Hrun _].
  - lia.
  - vm_compute. reflexivity.
  - int_lia.
  - exact Hrun.
Defined.

(** ** The passes of BubbleSort *)

(** C6.  On a vector of [n] elements [BubbleSort::sort] makes exactly [n]
    passes, whatever the contents; pass [i] compares the adjacent pairs at
    the indices [0 .. n - i - 2] in this order and nothing else; a pair
    is swapped exactly when its left element is strictly greater than its
    right element, so equal elements are never swapped. *)
Theorem bubble_sort_passes (data : vec) :
  vector_wf data ->
  exists passes,
    BubbleTrace.sort data = Ok (bubble_passes (length data) 0 data, passes) /\
    BubbleSort.sort data = Ok (bubble_passes (length data) 0 data) /\
    length passes = length data /\
    (forall (i : nat) steps, passes !! i = Some steps ->
       pos <$> steps = seqZ 0 (size data - Z.of_nat i - 1)) /\
    (forall steps st, steps ∈ passes -> st ∈ steps ->
       swapped st = (left st >? right st) /\ (left st = right st -> swapped st = false)).
Proof.
  intros Hwf. unfold BubbleTrace.sort. change 0 with (Z.of_nat 0) at 1.
  destruct (trace_outer_refines (length data) (length data) data 0%nat)
    as (passes & Hrun & Hlen & Hpos & Hok); auto.
  exists passes. split; [exact Hrun|]. split; [apply bubble_sort_refines; exact Hwf|].
  split; [exact Hlen|]. split.
  - intros i steps Hi. rewrite (Hpos i steps Hi). f_equal; lia.
  - intros steps st Hsteps Hst.
    rewrite Forall_forall in Hok. specialize (Hok steps Hsteps).
    rewrite Forall_forall in Hok. specialize (Hok st Hst).
    unfold step_ok in Hok. split; [exact Hok|].
    intros Heq. rewrite Hok, Heq, Z.gtb_ltb. apply Z.ltb_irrefl.
Qed.

Lemma bubble_sort_passes_witness :
  exists passes,
    BubbleTrace.sort [1; 2; 3] = Ok ([1; 2; 3], passes) /\ length passes = 3%nat.
Proof.
  assert (Hwf : vector_wf [1; 2; 3]) by (vm_compute; discriminate).
  destruct (bubble_sort_passes [1; 2; 3] Hwf) as (passes & Hrun & _ & Hlen & _).
  exists passes. split; [exact Hrun|exact Hlen].
Defined.

(** ** Boundary cases *)

(** C7.  Both routines turn the empty vector into the empty vector and
    leave a vector of one element as it is. *)
Theorem sort_small :
  BubbleSort.sort [] = Ok [] /\ QuickSort.sort [] = Ok [] /\
  forall x : Z, BubbleSort.sort [x] = Ok [x] /\ QuickSort.sort [x] = Ok [x].
Proof.
  split; [reflexivity|]. split; [reflexivity|].
  intros x. split; reflexivity.
Qed.

(** ** Parsing the line *)

(** C8 (amended).  The parse stops at the first place of the line where
    no integer can be extracted, without an error.  The parsed sequence
    begins with the values of the leading integer tokens, and it is
    exactly those when every token is an integer or when nothing can be
    extracted from the first token that is not one.  When an integer [v]
    can be extracted from that token, leaving the characters [r] of it,
    the parsed sequence is those values, then [v], then what the parse
    yields on [r] followed by the rest of the line: the extraction goes
    on from the character after the integer.  The empty line gives the
    empty sequence, which both routines sort to the empty sequence. *)
Theorem parse_line_tokens (line : string) :
  (exists data, parse_line line = Ok data /\
     spec_parse line `prefix_of` data /\
     match first_bad_token (tokens_of line) with
     | None => data = spec_parse line
     | Some tok =>
         (exists before,
            list_ascii_of_string line = before ++ tok ++ after_bad_token line) /\
         match extract_int tok with
         | None => data = spec_parse line
         | Some (v, r) =>
             exists data',
               parse_line (string_of_list_ascii (r ++ after_bad_token line)) = Ok data' /\
               data = spec_parse line ++ v :: data'
         end
     end) /\
  parse_line "" = Ok [] /\
  BubbleSort.sort [] = Ok [] /\ QuickSort.sort [] = Ok [].
Proof.
  split; [|repeat split; reflexivity].
  unfold parse_line, spec_parse, tokens_of, after_bad_token. cbv zeta.
  destruct (read_numbers_tokens (length (list_ascii_of_string line)) (list_ascii_of_string line))
    as (data & Hdata & Hpre & Hrel); [lia|].
  exists data. split; [exact Hdata|]. split; [exact Hpre|].
  destruct (first_bad_token _) as [tok|] eqn:Hbad; [|exact Hrel].
  split; [apply after_first_bad_split; exact Hbad|].
  destruct (extract_int tok) as [[v r]|]; [|exact Hrel].
  rewrite list_ascii_of_string_of_list_ascii. exact Hrel.
Qed.

(** C8 as stated fails: in "1 2abc 3" the token "2abc" is not an integer,
    yet its leading 2 is part of the parsed sequence. *)
Lemma parse_line_counterexample :
  parse_line "1 2abc 3" = Ok [1; 2] /\ spec_parse "1 2abc 3" = [1] /\
  parse_line "1 2abc 3" <> Ok (spec_parse "1 2abc 3").
Proof.
  split; [vm_compute; reflexivity|]. split; [vm_compute; reflexivity|].
  vm_compute. discriminate.
Qed.

(** After an integer at the beginning of a token the extraction goes on
    inside the token, and beyond it when it succeeds again. *)
Example parse_inside_token : parse_line "5-3 4" = Ok [5; -3; 4].
Proof. vm_compute. reflexivity. Qed.

(** In "1 2abc 3" the first token that is not an integer is "2abc"; the
    parse takes its 2 and goes on with "abc 3", where it stops. *)
Example parse_after_bad_token :
  first_bad_token (tokens_of "1 2abc 3") = Some (list_ascii_of_string "2abc") /\
  extract_int (list_ascii_of_string "2abc") = Some (2, list_ascii_of_string "abc") /\
  after_bad_token "1 2abc 3" = list_ascii_of_string " 3" /\
  parse_line "abc 3" = Ok [].
Proof. repeat split; vm_compute; reflexivity. Qed.

(** ** Element accesses *)

Lemma at_index_inside (data : vec) (z : Z) :
  0 <= z < size data -> exists x, at_index data z = Ok x.
Proof.
  intros Hz. destruct (lookup_lt_is_Some_2 data (Z.to_nat z)) as [x Hx];
    [unfold size in Hz; lia|].
  exists x. rewrite <- (Z2Nat.id z) by lia. apply at_index_Ok. exact Hx.
Qed.

(** [partition] called with [high] below [low], both inside the vector:
    the scan is empty and the elements at [low] and [high] change
    places. *)
Lemma partition_crossed (data : vec) low high :
  0 <= high < low -> low < size data -> size data <= INT_MAX ->
  QuickSort.partition data low high = Ok (exchange data low high, low).
Proof.
  intros Hhl Hlow Hsize. unfold QuickSort.partition.
  rewrite (int_index high) by lia.
  destruct (at_index_inside data high) as [pivot ->]; [lia|]. cbn [mbind result_bind].
  rewrite partition_loop_unfold.
  destruct (Z.ltb_spec low high); [lia|]. cbn [mbind result_bind].
  rewrite (int_small (low - 1)) by lia.
  replace (low - 1 + 1) with low by lia.
  rewrite (int_small low), (int_index low) by lia.
  rewrite swap_Ok_Z by lia. reflexivity.
Qed.


(** C9 (amended).  [BubbleSort::sort] reads and writes only inside the
    vector, for every vector.  On a vector of at most [INT_MAX]
    (2^31 - 1) elements so do [QuickSort::sort], [quicksort] called with
    [0 <= low] and [high < size], and [partition] called with [low] and
    [high] both inside the vector, in either order.  On the empty vector
    [data.size() - 1] wraps and converts to [-1], and [quicksort] with
    [low = 0], [high = -1] returns the vector untouched. *)
Theorem sort_in_bounds (data : vec) :
  vector_wf data ->
  (exists r, BubbleSort.sort data = Ok r) /\
  (size data <= INT_MAX ->
     (exists r, QuickSort.sort data = Ok r) /\
     (forall fuel low high,
        0 <= low -> high < size data -> high - low <= Z.of_nat fuel ->
        exists r, QuickSort.quicksort fuel data low high = Ok r) /\
     (forall low high,
        0 <= low < size data -> 0 <= high < size data ->
        exists d pi, QuickSort.partition data low high = Ok (d, pi))) /\
  wrap_int (wrap_size (size [] - 1)) = -1 /\
  (forall fuel, QuickSort.quicksort fuel data 0 (-1) = Ok data).
Proof.
  intros Hwf. split; [|split; [|split]].
  - destruct (bubble_sort_sorts data Hwf) as (r & Hr & _). eauto.
  - intros Hsize. split; [|split].
    + destruct (quick_sort_sorts data Hsize) as (r & Hr & _). eauto.
    + intros fuel low high Hlow Hhigh Hfuel.
      destruct (Z.le_gt_cases low (high + 1)) as [Hle|Hgt].
      * destruct (quicksort_sorts fuel data low high) as (r & Hr & _); eauto; lia.
      * exists data. apply quicksort_trivial. lia.
    + intros low high Hlow Hhigh.
      destruct (Z.le_gt_cases low high) as [Hle|Hgt].
      * rewrite partition_refines by lia.
        destruct (partition_spec data low high) as [d pi]. eauto.
      * rewrite partition_crossed by lia. eauto.
  - reflexivity.
  - intros fuel. apply quicksort_trivial. lia.
Qed.

Lemma sort_in_bounds_witness :
  (exists r, BubbleSort.sort [5; 3; 8; 1; 9; 2] = Ok r) /\
  (exists r, QuickSort.sort [5; 3; 8; 1; 9; 2] = Ok r) /\
  (exists r, QuickSort.quicksort 0 [5; 3; 8; 1; 9; 2] 7 (-2) = Ok r) /\
  (exists d pi, QuickSort.partition [5; 3; 8; 1; 9; 2] 4 1 = Ok (d, pi)).
Proof.
  assert (Hwf : vector_wf [5; 3; 8; 1; 9; 2]) by (vm_compute; discriminate).
  assert (Hsize : size [5; 3; 8; 1; 9; 2] <= INT_MAX) by (vm_compute; discriminate).
  destruct (sort_in_bounds [5; 3; 8; 1; 9; 2] Hwf) as (Hbubble & Hquick & _).
  destruct (Hquick Hsize) as (Hsort & Hquicksort & Hpartition).
  split; [exact Hbubble|]. split; [exact Hsort|]. split.
  - apply Hquicksort; [lia|reflexivity|lia].
  - apply Hpartition; split; (lia || reflexivity).
Defined.

(** C9 as stated fails: on 2^31 - 1 zeros followed by a one, the pivot of
    the outermost call ends at index [INT_MAX], [pi + 1] overflows to
    [INT_MIN], and the second recursive call reads [data[INT_MIN]]. *)
Lemma quick_sort_out_of_bounds :
  vector_wf long_sorted /\ QuickSort.sort long_sorted = Fault.
Proof. split; [exact long_sorted_wf|exact long_sorted_faults]. Qed.

(** ** Frame *)

(** C10.  A call [quicksort(data, low, high)] that completes leaves every
    element outside the positions [low .. high] as it was, and so does its
    partition step; the call completes whenever the bounds are inside the
    vector and below [INT_MAX], and a call that does not complete has read
    outside the vector (the budget of the model does not run out). *)
Theorem quicksort_frame_effect (fuel : nat) (data : vec) (low high : Z) :
  vector_wf data -> is_int low -> is_int high ->
  (forall r, QuickSort.quicksort fuel data low high = Ok r ->
     same_outside low high data r /\ length r = length data) /\
  (forall d pi, low < high -> QuickSort.partition data low high = Ok (d, pi) ->
     same_outside low high data d) /\
  (0 <= low -> low <= high + 1 -> high < size data -> high < INT_MAX ->
   high - low <= Z.of_nat fuel ->
   exists r, QuickSort.quicksort fuel data low high = Ok r) /\
  (high - low < Z.of_nat fuel -> QuickSort.quicksort fuel data low high <> OutOfFuel).
Proof.
  intros Hwf Hlow Hhigh. split; [|split; [|split]].
  - intros r Hr. eapply quicksort_frame; eauto.
  - intros d pi Hlt Hpart. eapply partition_frame; eauto.
  - intros H0 Hle Hsz Hmax Hfuel.
    destruct (quicksort_sorts fuel data low high) as (r & Hr & _); eauto.
  - intros Hfuel. apply quicksort_fuel; assumption.
Qed.

Lemma quicksort_frame_effect_witness :
  QuickSort.quicksort 6 [9; 5; 3; 8; 1; 7] 1 4 = Ok [9; 1; 3; 5; 8; 7] /\
  same_outside 1 4 [9; 5; 3; 8; 1; 7] [9; 1; 3; 5; 8; 7].
Proof.
  assert (Hrun : QuickSort.quicksort 6 [9; 5; 3; 8; 1; 7] 1 4 = Ok [9; 1; 3; 5; 8; 7])
    by (vm_compute; reflexivity).
  split; [exact Hrun|].
  destruct (quicksort_frame_effect 6 [9; 5; 3; 8; 1; 7] 1 4) as (Hframe & _).
  - vm_compute. discriminate.
  - int_lia.
  - int_lia.
  - apply (Hframe _ Hrun).
Defined.

(** * Further properties of the code *)

(** ** The ascending rearrangement *)

Lemma StronglySorted_ordered_from (l : vec) : StronglySorted Z.le l -> ordered_from 0 l.
Proof.
  induction 1 as [|x l Hl IH Hx]; intros a b u v Hab _ Hu Hv.
  - discriminate.
  - destruct b as [|b]; [lia|]. cbn in Hv.
    destruct a as [|a]; cbn in Hu.
    + injection Hu as <-. rewrite Forall_forall in Hx. apply Hx.
      apply list_elem_of_lookup. eauto.
    + apply (IH a b u v); auto; lia.
Qed.

Lemma ordered_perm_unique (data r1 r2 : vec) :
  r1 ≡ₚ data -> r2 ≡ₚ data -> ordered_from 0 r1 -> ordered_from 0 r2 -> r1 = r2.
Proof.
  intros Hp1 Hp2 Ho1 Ho2. apply (StronglySorted_unique Z.le).
  - apply ordered_from_StronglySorted. exact Ho1.
  - apply ordered_from_StronglySorted. exact Ho2.
  - rewrite Hp1, Hp2. reflexivity.
Qed.

Lemma adjacent_ordered_from (data : vec) : adjacent_ordered data -> ordered_from 0 data.
Proof.
  intros H a b x y Hab _ Hx Hy.
  revert y Hy. induction b as [|b IH]; intros y Hy; [lia|].
  destruct (lookup_lt_is_Some_2 data b) as [z Hz];
    [pose proof (lookup_lt_Some _ _ _ Hy); lia|].
  pose proof (H b z y Hz Hy).
  destruct (decide (a = b)) as [->|Hne]; [simplify_eq; lia|].
  assert (x <= z) by (apply IH; [lia|exact Hz]). lia.
Qed.

Lemma std_sort_perm (data : vec) : std_sort data ≡ₚ data.
Proof. apply merge_sort_Permutation. Qed.

Lemma std_sort_ordered (data : vec) : ordered_from 0 (std_sort data).
Proof. apply StronglySorted_ordered_from, (StronglySorted_merge_sort Z.le). Qed.

Lemma size_std_sort (data : vec) : size (std_sort data) = size data.
Proof. unfold size. rewrite (Permutation_length (std_sort_perm data)). reflexivity. Qed.

Lemma std_sort_ordered_id (data : vec) : adjacent_ordered data -> std_sort data = data.
Proof.
  intros H. apply (ordered_perm_unique data).
  - apply std_sort_perm.
  - reflexivity.
  - apply std_sort_ordered.
  - apply adjacent_ordered_from. exact H.
Qed.

Lemma bubble_sort_std (data : vec) :
  vector_wf data -> BubbleSort.sort data = Ok (std_sort data).
Proof.
  intros Hwf. destruct (bubble_sort_sorts data Hwf) as (r & -> & Hperm & Hord).
  f_equal. apply (ordered_perm_unique data); auto using std_sort_perm, std_sort_ordered.
Qed.

Lemma quick_sort_std (data : vec) :
  size data <= INT_MAX -> QuickSort.sort data = Ok (std_sort data).
Proof.
  intros Hsize. destruct (quick_sort_sorts data Hsize) as (r & -> & Hperm & Hord).
  f_equal. apply (ordered_perm_unique data); auto using std_sort_perm, std_sort_ordered.
Qed.

Lemma int_size_wf (data : vec) : size data <= INT_MAX -> vector_wf data.
Proof. unfold vector_wf, INT_MAX, PTRDIFF_MAX. lia. Qed.

Lemma strategy_sort_std (s : strategy) (data : vec) :
  size data <= INT_MAX -> strategy_sort s data = Ok (std_sort data).
Proof.
  intros Hsize. destruct s; simpl.
  - apply bubble_sort_std, int_size_wf, Hsize.
  - apply quick_sort_std, Hsize.
  - reflexivity.
Qed.

(** ** Sorting what is sorted *)

(** X1.  Both routines return an ordered vector as it is, and so a
    routine run on its own result changes nothing ([QuickSort::sort]: on
    vectors of at most [INT_MAX] elements). *)
Theorem sort_idempotent (data : vec) :
  vector_wf data ->
  (adjacent_ordered data ->
     BubbleSort.sort data = Ok data /\
     (size data <= INT_MAX -> QuickSort.sort data = Ok data)) /\
  (forall r, BubbleSort.sort data = Ok r -> BubbleSort.sort r = Ok r) /\
  (size data <= INT_MAX -> forall r, QuickSort.sort data = Ok r -> QuickSort.sort r = Ok r).
Proof.
  intros Hwf. split; [|split].
  - intros Hord. split.
    + rewrite bubble_sort_std by exact Hwf. f_equal. apply std_sort_ordered_id, Hord.
    + intros Hsize. rewrite quick_sort_std by exact Hsize.
      f_equal. apply std_sort_ordered_id, Hord.
  - intros r Hr. rewrite bubble_sort_std in Hr by exact Hwf. injection Hr as <-.
    rewrite bubble_sort_std.
    + f_equal. apply std_sort_ordered_id, ordered_from_adjacent, std_sort_ordered.
    + unfold vector_wf. rewrite size_std_sort. exact Hwf.
  - intros Hsize r Hr. rewrite quick_sort_std in Hr by exact Hsize. injection Hr as <-.
    rewrite quick_sort_std by (rewrite size_std_sort; exact Hsize).
    f_equal. apply std_sort_ordered_id, ordered_from_adjacent, std_sort_ordered.
Qed.

Lemma sort_idempotent_witness :
  BubbleSort.sort [1; 2; 2; 5] = Ok [1; 2; 2; 5] /\ QuickSort.sort [1; 2; 2; 5] = Ok [1; 2; 2; 5].
Proof.
  assert (Hwf : vector_wf [1; 2; 2; 5]) by (vm_compute; discriminate).
  assert (Hord : adjacent_ordered [1; 2; 2; 5]).
  { intros [|[|[|[|i]]]] a b Ha Hb; cbn in Ha, Hb; simplify_eq; lia. }
  destruct (sort_idempotent [1; 2; 2; 5] Hwf) as (Hsorted & _).
  destruct (Hsorted Hord) as [Hbubble Hquick].
  split; [exact Hbubble|]. apply Hquick. vm_compute. discriminate.
Defined.

(** ** The contract of [quicksort] on a range *)

(** X2.  For bounds inside the vector, [quicksort(data, low, high)] ends
    with a permutation of the vector in which the positions
    [low .. high] are in non-descending order and hold what they held
    before in some order, and the other positions are untouched. *)
Theorem quicksort_sorts_range (fuel : nat) (data : vec) (low high : Z) :
  0 <= low -> low <= high + 1 -> high < size data -> high < INT_MAX ->
  high - low <= Z.of_nat fuel ->
  exists r, QuickSort.quicksort fuel data low high = Ok r /\
    r ≡ₚ data /\
    ordered_between low high r /\
    same_outside low high data r /\
    (forall P, all_in P low (high + 1) data -> all_in P low (high + 1) r).
Proof.
  intros Hlow Hle Hhigh Hmax Hfuel.
  destruct (quicksort_sorts fuel data low high Hlow Hle Hhigh Hmax Hfuel)
    as (r & Hr & _ & Hperm & Hsame & Hwin & Hord).
  exists r. auto.
Qed.

Lemma quicksort_sorts_range_witness :
  QuickSort.quicksort 4 [9; 5; 3; 8; 1; 7] 1 4 = Ok [9; 1; 3; 5; 8; 7] /\
  ordered_between 1 4 [9; 1; 3; 5; 8; 7].
Proof.
  destruct (quicksort_sorts_range 4 [9; 5; 3; 8; 1; 7] 1 4) as (r & Hr & _ & Hord & _).
  - lia.
  - lia.
  - vm_compute. reflexivity.
  - int_lia.
  - lia.
  - assert (Heq : r = [9; 1; 3; 5; 8; 7]).
    { assert (Hrun : QuickSort.quicksort 4 [9; 5; 3; 8; 1; 7] 1 4 = Ok [9; 1; 3; 5; 8; 7])
        by (vm_compute; reflexivity).
      rewrite Hrun in Hr. injection Hr as <-. reflexivity. }
    rewrite <- Heq. split; [exact Hr|exact Hord].
Defined.

(** ** The number of comparisons of BubbleSort *)

Lemma triangle_count {A} (passes : list (list A)) : forall c : Z,
  (forall (p : nat) steps, passes !! p = Some steps ->
     Z.of_nat (length steps) = c - Z.of_nat p) ->
  2 * Z.of_nat (length (concat passes))
  = Z.of_nat (length passes) * (2 * c - Z.of_nat (length passes) + 1).
Proof.
  induction passes as [|steps passes IH]; intros c Hlen.
  - simpl. lia.
  - cbn [concat length]. rewrite length_app.
    pose proof (Hlen 0%nat steps eq_refl) as H0.
    specialize (IH (c - 1)).
    rewrite Nat2Z.inj_add, Nat2Z.inj_succ.
    assert (Hrest : 2 * Z.of_nat (length (concat passes))
                    = Z.of_nat (length passes) * (2 * (c - 1) - Z.of_nat (length passes) + 1)).
    { apply IH. intros p st Hp. rewrite (Hlen (S p) st Hp). lia. }
    nia.
Qed.

(** X3.  On a vector of [n] elements [BubbleSort::sort] compares
    [n (n - 1) / 2] pairs, whatever the contents (also when the vector
    is ordered from the start). *)
Theorem bubble_sort_comparisons (data : vec) :
  vector_wf data ->
  exists r passes,
    BubbleTrace.sort data = Ok (r, passes) /\
    BubbleSort.sort data = Ok r /\
    2 * Z.of_nat (length (concat passes)) = size data * (size data - 1).
Proof.
  intros Hwf. unfold BubbleTrace.sort. change 0 with (Z.of_nat 0) at 1.
  destruct (trace_outer_refines (length data) (length data) data 0%nat)
    as (passes & Hrun & Hlen & Hpos & _); auto.
  exists (bubble_passes (length data) 0 data), passes.
  split; [exact Hrun|]. split; [apply bubble_sort_refines; exact Hwf|].
  rewrite (triangle_count passes (size data - 1)).
  - rewrite Hlen. unfold size. lia.
  - intros p steps Hp.
    assert (Hp' : (p < length data)%nat) by (rewrite <- Hlen; eapply lookup_lt_Some; eauto).
    apply Hpos in Hp. apply (f_equal length) in Hp.
    rewrite length_fmap, length_seqZ in Hp. unfold size in *. lia.
Qed.

Lemma bubble_sort_comparisons_witness :
  exists r passes,
    BubbleTrace.sort [1; 2; 3; 4] = Ok (r, passes) /\ length (concat passes) = 6%nat.
Proof.
  assert (Hwf : vector_wf [1; 2; 3; 4]) by (vm_compute; discriminate).
  destruct (bubble_sort_comparisons [1; 2; 3; 4] Hwf) as (r & passes & Hrun & _ & Hcount).
  exists r, passes. split; [exact Hrun|].
  change (size [1; 2; 3; 4]) with 4 in Hcount. lia.
Defined.

(** ** QuickSort on vectors that [int] cannot index *)

(** X4.  A vector of more than [INT_MAX + 1] and at most 2^32 elements
    comes back from [QuickSort::sort] as it was: [data.size() - 1]
    converts to a negative [int], and the guard of [quicksort] fails at
    once. *)
Theorem quick_sort_beyond_int (data : vec) :
  INT_MAX + 2 <= size data <= 4294967296 -> QuickSort.sort data = Ok data.
Proof.
  intros Hsize. unfold QuickSort.sort.
  rewrite wrap_size_small by int_lia.
  apply quicksort_trivial.
  unfold wrap_int.
  replace (size data - 1 + 2147483648) with (size data - 1 - 2147483648 + 1 * 4294967296) by lia.
  rewrite Z_mod_plus_full, Z.mod_small by int_lia. int_lia.
Qed.

Lemma quick_sort_beyond_int_witness :
  QuickSort.sort long_unsorted = Ok long_unsorted /\ ~ adjacent_ordered long_unsorted.
Proof.
  split; [|exact long_unsorted_not_ordered].
  apply quick_sort_beyond_int. rewrite size_long_unsorted. split; discriminate.
Defined.

(** ** Strategy, Adapter and Facade *)

(** X5.  On a vector of at most [INT_MAX] elements the three concrete
    strategies behind a [SortStrategy] pointer return the same vector:
    the ascending rearrangement of the input. *)
Theorem strategies_agree (s : strategy) (data : vec) :
  size data <= INT_MAX ->
  exists r, call_sort (Some s) data = Ok r /\
    r ≡ₚ data /\ adjacent_ordered r /\
    forall s', call_sort (Some s') data = Ok r.
Proof.
  intros Hsize. exists (std_sort data).
  split; [apply strategy_sort_std; exact Hsize|].
  split; [apply std_sort_perm|].
  split; [apply ordered_from_adjacent, std_sort_ordered|].
  intros s'. apply strategy_sort_std. exact Hsize.
Qed.

Lemma strategies_agree_witness :
  exists r, call_sort (Some UseSortAdapter) [3; 1; 2] = Ok r /\
            call_sort (Some UseBubbleSort) [3; 1; 2] = Ok r /\
            call_sort (Some UseQuickSort) [3; 1; 2] = Ok r.
Proof.
  destruct (strategies_agree UseSortAdapter [3; 1; 2]) as (r & Hr & _ & _ & Hall).
  - vm_compute. discriminate.
  - exists r. split; [exact Hr|]. split; apply Hall.
Defined.

(** X6.  The adapter returns what [BubbleSort::sort] returns, on every
    vector, also one longer than [INT_MAX], where [QuickSort::sort]
    does not order it. *)
Theorem adapter_is_bubble_sort (data : vec) :
  vector_wf data -> SortAdapter.sort data = BubbleSort.sort data.
Proof. intros Hwf. rewrite bubble_sort_std by exact Hwf. reflexivity. Qed.

Lemma adapter_is_bubble_sort_witness :
  SortAdapter.sort [5; -1; 5; 0] = BubbleSort.sort [5; -1; 5; 0].
Proof. apply adapter_is_bubble_sort. vm_compute. discriminate. Defined.

(** X7.  The facade's pointers are never null: its two member functions
    complete on every vector of at most [INT_MAX] elements and return
    the same vector. *)
Theorem facade_agrees (data : vec) :
  size data <= INT_MAX ->
  exists r, SortFacade.sortWithBubble data = Ok r /\
    SortFacade.sortWithQuick data = Ok r /\
    r ≡ₚ data /\ adjacent_ordered r.
Proof.
  intros Hsize. exists (std_sort data).
  split; [apply (strategy_sort_std UseBubbleSort); exact Hsize|].
  split; [apply (strategy_sort_std UseQuickSort); exact Hsize|].
  split; [apply std_sort_perm|apply ordered_from_adjacent, std_sort_ordered].
Qed.

Lemma facade_agrees_witness :
  exists r, SortFacade.sortWithBubble [2; 7; 2] = Ok r /\
            SortFacade.sortWithQuick [2; 7; 2] = Ok r.
Proof.
  destruct (facade_agrees [2; 7; 2]) as (r & Hb & Hq & _).
  - vm_compute. discriminate.
  - exists r. split; [exact Hb|exact Hq].
Defined.

(** ** Template Method *)



(** ** Composite *)

Lemma component_induction (P : component -> Prop) :
  (forall p, P (SimpleSort p)) ->
  (forall cs,
     Forall (fun oc => match oc with Some c => P c | None => True end) cs ->
     P (CompositeSort cs)) ->
  forall c, P c.
Proof.
  intros Hsimple Hcomposite. fix IH 1. intros [p|cs].
  - apply Hsimple.
  - apply Hcomposite. revert cs. fix IHcs 1. intros [|[c|] cs].
    + constructor.
    + constructor; [apply IH|apply IHcs].
    + constructor; [exact I|apply IHcs].
Qed.

Lemma component_sort_children (cs : list (option component)) (data : vec) :
  component_sort (CompositeSort cs) data = children_sort cs data.
Proof. destruct cs; reflexivity. Qed.

Lemma std_sort_idem (data : vec) : std_sort (std_sort data) = std_sort data.
Proof. apply std_sort_ordered_id, ordered_from_adjacent, std_sort_ordered. Qed.

(** X9.  The result of a component tree on a vector of at most
    [INT_MAX] elements: undefined behaviour if a pointer of the tree is
    null; otherwise the ascending rearrangement if the tree has a
    [SimpleSort], and the vector as it was if it has none. *)
Theorem composite_sort_result (c : component) (data : vec) :
  size data <= INT_MAX ->
  component_sort c data =
    if no_null c then Ok (if has_leaf c then std_sort data else data) else Fault.
Proof.
  revert data. induction c as [p|cs IH] using component_induction; intros data Hsize.
  - destruct p as [s|]; cbn; [|reflexivity].
    apply strategy_sort_std. exact Hsize.
  - rewrite component_sort_children. revert data Hsize.
    induction IH as [|[c|] cs Hc _ IHcs]; intros data Hsize; try reflexivity.
    cbn [children_sort no_null has_leaf forallb existsb] in *.
    rewrite Hc by exact Hsize.
    destruct (no_null c); [|reflexivity]. cbn [mbind result_bind andb].
    destruct (has_leaf c); cbn [orb].
    + rewrite IHcs by (rewrite size_std_sort; exact Hsize).
      destruct (forallb _ cs); [|reflexivity].
      destruct (existsb _ cs); [rewrite std_sort_idem|]; reflexivity.
    + apply IHcs. exact Hsize.
Qed.

Lemma composite_sort_result_witness :
  component_sort
    (CompositeSort [Some (CompositeSort []); Some (SimpleSort (Some UseQuickSort));
                    Some (SimpleSort (Some UseBubbleSort))]) [4; 1; 3]
  = Ok (std_sort [4; 1; 3]) /\
  component_sort (CompositeSort [Some (SimpleSort (Some UseQuickSort)); None]) [4; 1; 3]
  = Fault.
Proof.
  split.
  - apply (composite_sort_result
             (CompositeSort [Some (CompositeSort []); Some (SimpleSort (Some UseQuickSort));
                             Some (SimpleSort (Some UseBubbleSort))]) [4; 1; 3]).
    vm_compute. discriminate.
  - apply (composite_sort_result
             (CompositeSort [Some (SimpleSort (Some UseQuickSort)); None]) [4; 1; 3]).
    vm_compute. discriminate.
Defined.

(** X10.  [add] puts the component behind the others: a composite runs
    its earlier children first and the added component on their result,
    and stops where one of them fails. *)
Theorem composite_add (cs : list (option component)) (c : option component) (data : vec) :
  component_sort (CompositeSort (add cs c)) data =
    match component_sort (CompositeSort cs) data with
    | Ok data' =>
        match c with
        | Some child => component_sort child data'
        | None => Fault
        end
    | Fault => Fault
    | OutOfFuel => OutOfFuel
    end.
Proof.
  rewrite !component_sort_children. unfold add. revert data.
  induction cs as [|[c'|] cs IH]; intros data.
  - cbn. destruct c as [child|]; [|reflexivity].
    destruct (component_sort child data); reflexivity.
  - cbn [app children_sort].
    destruct (component_sort c' data) as [data'| |]; try reflexivity.
    cbn. apply IH.
  - reflexivity.
Qed.

(** ** Iterator *)

Lemma next_times_from (data : vec) : forall (k i : nat),
  vector_wf data -> (i + k <= length data)%nat ->
  next_times k (VectorIterator (Z.of_nat i)) data
  = Ok (take k (drop i data), VectorIterator (Z.of_nat (i + k))).
Proof.
  intros k. induction k as [|k IH]; intros i Hwf Hlen.
  - cbn. rewrite Nat.add_0_r. reflexivity.
  - destruct (lookup_lt_is_Some_2 data i) as [x Hx]; [lia|].
    cbn [next_times]. unfold next. cbn [index].
    rewrite (at_index_Ok _ _ _ Hx). cbn [mbind result_bind].
    rewrite wrap_size_small
      by (unfold vector_wf, size, PTRDIFF_MAX in Hwf; lia).
    replace (Z.of_nat i + 1) with (Z.of_nat (S i)) by lia.
    rewrite IH by (auto; lia). cbn [mbind result_bind].
    rewrite (drop_S _ _ _ Hx). cbn [take].
    replace (S i + k)%nat with (i + S k)%nat by lia. reflexivity.
Qed.

(** X11.  Starting from a new iterator, [k] calls of [next] with
    [k <= size] return the first [k] elements in order; [hasNext] then
    tells whether an element is left, and after [size] calls a further
    [next] reads outside the vector. *)
Theorem iterator_traversal (data : vec) (k : nat) :
  vector_wf data -> (k <= length data)%nat ->
  exists it,
    next_times k new_iterator data = Ok (take k data, it) /\
    hasNext it data = bool_decide (k < length data)%nat /\
    (k = length data -> next it data = Fault).
Proof.
  intros Hwf Hk. exists (VectorIterator (Z.of_nat k)).
  split; [|split].
  - apply (next_times_from data k 0 Hwf). lia.
  - unfold hasNext, size. cbn [index].
    destruct (Z.ltb_spec (Z.of_nat k) (Z.of_nat (length data)));
      [rewrite bool_decide_eq_true_2|rewrite bool_decide_eq_false_2]; auto; lia.
  - intros ->. unfold next. cbn [index].
    rewrite at_index_Fault by (unfold size; lia). reflexivity.
Qed.

Lemma iterator_traversal_witness :
  exists it,
    next_times 3 new_iterator [7; 8; 9] = Ok ([7; 8; 9], it) /\
    hasNext it [7; 8; 9] = false /\ next it [7; 8; 9] = Fault.
Proof.
  destruct (iterator_traversal [7; 8; 9] 3) as (it & Hrun & Hhas & Hnext).
  - vm_compute. discriminate.
  - simpl. lia.
  - exists it. split; [exact Hrun|]. split; [exact Hhas|]. apply Hnext. reflexivity.
Defined.

(** ** Builder *)

Lemma build_last (setters : list setter) :
  (build (foldl apply_setter new_builder setters)).1 = setter_strategy <$> last setters.
Proof.
  induction setters as [|s setters _] using rev_ind; [reflexivity|].
  rewrite foldl_app, last_snoc. destruct s; reflexivity.
Qed.

(** X12.  A [SimpleSort] made from what [build] returns after one or
    more setter calls orders every vector of at most [INT_MAX] elements,
    with the routine of the last setter called; [build] leaves a null
    pointer in the builder, and a [SimpleSort] made from a second
    [build] calls through it. *)
Theorem builder_builds_sorter (setters : list setter) (s : setter) (data : vec) :
  size data <= INT_MAX ->
  exists r,
    (build (foldl apply_setter new_builder (setters ++ [s]))).1
      = Some (setter_strategy s) /\
    component_sort
      (SimpleSort (build (foldl apply_setter new_builder (setters ++ [s]))).1) data
      = Ok r /\
    strategy_sort (setter_strategy s) data = Ok r /\
    r ≡ₚ data /\ adjacent_ordered r /\
    component_sort
      (SimpleSort
         (build (build (foldl apply_setter new_builder (setters ++ [s]))).2).1) data
      = Fault.
Proof.
  intros Hsize. exists (std_sort data).
  rewrite build_last, last_snoc. cbn [fmap option_fmap option_map component_sort call_sort].
  rewrite strategy_sort_std by exact Hsize.
  split; [reflexivity|]. split; [reflexivity|]. split; [reflexivity|].
  split; [apply std_sort_perm|]. split; [apply ordered_from_adjacent, std_sort_ordered|].
  reflexivity.
Qed.

Lemma builder_builds_sorter_witness :
  exists r,
    component_sort
      (SimpleSort (build (setQuickSort (setBubbleSort new_builder))).1) [2; 1; 3] = Ok r /\
    QuickSort.sort [2; 1; 3] = Ok r /\ adjacent_ordered r.
Proof.
  destruct (builder_builds_sorter [SetBubbleSort] SetQuickSort [2; 1; 3])
    as (r & _ & Hrun & Hquick & _ & Hord & _).
  - vm_compute. discriminate.
  - exists r. split; [exact Hrun|]. split; [exact Hquick|exact Hord].
Defined.

(** ** Command *)

Lemma call_sort_std (s : strategy) (data : vec) :
  size data <= INT_MAX -> call_sort (Some s) data = Ok (std_sort data).
Proof. apply strategy_sort_std. Qed.

(** X13.  [execute] on a command holding a strategy and at most
    [INT_MAX] numbers prints them in ascending order, each followed by a
    blank, and a line end; the command keeps the ordered data, so that a
    second [execute] prints the same text. *)
Theorem execute_prints_sorted (s : strategy) (data : vec) :
  size data <= INT_MAX ->
  exists c' sorted,
    execute (SortCommand (Some s) data) = Ok (c', print_numbers sorted +:+ newline) /\
    sorted ≡ₚ data /\ adjacent_ordered sorted /\
    command_data c' = sorted /\
    execute c' = Ok (c', print_numbers sorted +:+ newline).
Proof.
  intros Hsize. exists (SortCommand (Some s) (std_sort data)), (std_sort data).
  unfold execute. cbn [sorter command_data].
  rewrite !call_sort_std by (rewrite ?size_std_sort; exact Hsize).
  cbn [mbind result_bind]. rewrite std_sort_idem.
  split; [reflexivity|]. split; [apply std_sort_perm|].
  split; [apply ordered_from_adjacent, std_sort_ordered|].
  split; reflexivity.
Qed.

Lemma execute_prints_sorted_witness :
  exists c' sorted,
    execute (SortCommand (Some UseQuickSort) [10; -3; 7])
    = Ok (c', print_numbers sorted +:+ newline) /\
    sorted ≡ₚ [10; -3; 7] /\ adjacent_ordered sorted.
Proof.
  destruct (execute_prints_sorted UseQuickSort [10; -3; 7])
    as (c' & sorted & Hrun & Hperm & Hord & _).
  - vm_compute. discriminate.
  - exists c', sorted. split; [exact Hrun|]. split; [exact Hperm|exact Hord].
Defined.

(** ** Observer *)

Lemma append_nil_r (s : string) : s +:+ EmptyString = s.
Proof.
  induction s as [|c s IH]; [reflexivity|].
  change (String c (s +:+ EmptyString) = String c s). f_equal. exact IH.
Qed.

Lemma append_assoc (a b c : string) : (a +:+ b) +:+ c = a +:+ b +:+ c.
Proof.
  induction a as [|x a IH]; [reflexivity|].
  change (String x ((a +:+ b) +:+ c) = String x (a +:+ b +:+ c)). f_equal. exact IH.
Qed.

(** X15.  [notify] calls the observers in the order of their
    registration: with [n] observers, none of them null, it prints
    the line [n] times; with a null pointer among them it is
    undefined. *)
Theorem notify_all (observers : list (option observer)) :
  notify observers =
    if forallb (fun o => bool_decide (is_Some o)) observers
    then Ok (String.concat "" (replicate (length observers) sorting_completed))
    else Fault.
Proof.
  induction observers as [|[o|] observers IH]; try reflexivity.
  cbn [notify forallb length replicate]. rewrite IH.
  rewrite bool_decide_eq_true_2 by eauto. cbn [andb].
  destruct (forallb _ observers); [|reflexivity].
  cbn [mbind result_bind]. f_equal. destruct o. cbn [update].
  destruct observers; reflexivity.
Qed.

(** X16.  [addObserver] registers behind the others: the new observer
    is called last, and only if the earlier calls went through. *)
Theorem notify_add (observers : list (option observer)) (o : option observer) :
  notify (addObserver observers o) =
    match notify observers with
    | Ok out =>
        match o with
        | Some o' => Ok (out +:+ update o')
        | None => Fault
        end
    | Fault => Fault
    | OutOfFuel => OutOfFuel
    end.
Proof.
  unfold addObserver. induction observers as [|[o'|] observers IH].
  - destruct o as [o'|]; [|reflexivity]. cbn. rewrite append_nil_r. reflexivity.
  - cbn [app notify]. rewrite IH.
    destruct (notify observers) as [out| |]; [|reflexivity..].
    destruct o as [o''|]; [|reflexivity]. cbn. rewrite append_assoc. reflexivity.
  - reflexivity.
Qed.

(** ** The runner: what is parsed *)

Lemma extract_int_is_int s v rest : extract_int s = Some (v, rest) -> is_int v.
Proof.
  unfold extract_int. destruct (read_sign (skip_ws s)) as [negative s1].
  destruct (starts_with_digit s1); [|discriminate].
  destruct (read_digits 0 s1) as [magnitude r].
  destruct (INT_MIN <=? _) eqn:E1; [|discriminate].
  destruct (_ <=? INT_MAX) eqn:E2; [|discriminate].
  intros [= <- _]. unfold is_int. lia.
Qed.

Lemma read_numbers_bound fuel : forall s data,
  read_numbers fuel s = Ok data -> Forall is_int data /\ (length data <= length s)%nat.
Proof.
  induction fuel as [|fuel IH]; intros s data; rewrite read_numbers_unfold;
    destruct (extract_int s) as [[v rest]|] eqn:Hext;
    try (intros [= <-]; split; [constructor|simpl; lia]); try discriminate.
  destruct (read_numbers fuel rest) as [data'| |] eqn:Hrest; try discriminate.
  intros [= <-]. destruct (IH _ _ Hrest) as [Hint Hlen].
  pose proof (extract_int_progress _ _ _ Hext).
  split; [constructor; [eapply extract_int_is_int; eauto|exact Hint]|simpl; lia].
Qed.

Lemma length_list_ascii_of_string (s : string) :
  length (list_ascii_of_string s) = String.length s.
Proof. induction s as [|c s IH]; [reflexivity|]. simpl. f_equal. exact IH. Qed.

Lemma parse_line_bound (line : string) (data : vec) :
  parse_line line = Ok data ->
  Forall is_int data /\ (length data <= String.length line)%nat.
Proof.
  intros Hdata. rewrite <- length_list_ascii_of_string.
  eapply read_numbers_bound, Hdata.
Qed.

(** X17.  The parse of a line always completes; every number it yields
    is an [int], and it yields no more numbers than the line has
    characters. *)
Theorem parse_line_ints (line : string) :
  exists data, parse_line line = Ok data /\
    Forall is_int data /\ (length data <= String.length line)%nat.
Proof.
  destruct (parse_line_total line) as [data Hdata].
  exists data. split; [exact Hdata|]. apply parse_line_bound, Hdata.
Qed.

(** X18.  [main] on a line of at most [INT_MAX] characters completes
    for both selectors, and the two runs print the same report: the
    parsed numbers in ascending order. *)
Theorem main_selectors_agree (line : string) (duration : Z) :
  Z.of_nat (String.length line) <= INT_MAX ->
  exists data sorted,
    parse_line line = Ok data /\
    sorted ≡ₚ data /\ adjacent_ordered sorted /\
    main line 1 duration = Ok (Outcome (report sorted duration) 0 [(Bubble, data)]) /\
    main line 2 duration = Ok (Outcome (report sorted duration) 0 [(Quick, data)]).
Proof.
  intros Hline. destruct (parse_line_total line) as [data Hparse].
  destruct (parse_line_bound line data Hparse) as [_ Hlen].
  assert (Hsize : size data <= INT_MAX) by (unfold size; lia).
  exists data, (std_sort data).
  split; [exact Hparse|]. split; [apply std_sort_perm|].
  split; [apply ordered_from_adjacent, std_sort_ordered|].
  unfold main. rewrite Hparse. cbn [mbind result_bind Z.eqb Pos.eqb].
  rewrite bubble_sort_std by (apply int_size_wf; exact Hsize).
  rewrite quick_sort_std by exact Hsize. split; reflexivity.
Qed.

Lemma main_selectors_agree_witness :
  exists data sorted,
    parse_line "3 -1 2" = Ok data /\
    main "3 -1 2" 1 15 = Ok (Outcome (report sorted 15) 0 [(Bubble, data)]) /\
    main "3 -1 2" 2 15 = Ok (Outcome (report sorted 15) 0 [(Quick, data)]).
Proof.
  destruct (main_selectors_agree "3 -1 2" 15) as (data & sorted & Hparse & _ & _ & Hb & Hq).
  - vm_compute. discriminate.
  - exists data, sorted. split; [exact Hparse|]. split; [exact Hb|exact Hq].
Defined.

(** ** The runner: what is printed can be read back *)

Lemma list_ascii_of_string_app (a b : string) :
  list_ascii_of_string (a +:+ b) = list_ascii_of_string a ++ list_ascii_of_string b.
Proof.
  induction a as [|c a IH]; [reflexivity|].
  change (c :: list_ascii_of_string (a +:+ b)
          = c :: (list_ascii_of_string a ++ list_ascii_of_string b)).
  f_equal. exact IH.
Qed.

Lemma print_numbers_cons (x : Z) (xs : vec) :
  print_numbers (x :: xs) = pretty x +:+ " " +:+ print_numbers xs.
Proof.
  unfold print_numbers. destruct xs as [|y ys].
  - change ((pretty x +:+ " ") = pretty x +:+ " " +:+ EmptyString).
    rewrite append_nil_r. reflexivity.
  - change ((pretty x +:+ " ") +:+ String.concat "" (map (fun num : Z => pretty num +:+ " ") (y :: ys))
            = pretty x +:+ " " +:+ String.concat "" (map (fun num : Z => pretty num +:+ " ") (y :: ys))).
    apply append_assoc.
Qed.

Lemma pretty_N_char_digit (d : N) :
  (d < 10)%N ->
  isdigit (pretty_N_char d) = true /\ digit_value (pretty_N_char d) = Z.of_N d.
Proof.
  intros H.
  assert (Hd : (d = 0 \/ d = 1 \/ d = 2 \/ d = 3 \/ d = 4 \/
                d = 5 \/ d = 6 \/ d = 7 \/ d = 8 \/ d = 9)%N) by lia.
  repeat (destruct Hd as [->|Hd]; [split; reflexivity|]).
  subst. split; reflexivity.
Qed.

Lemma pretty_N_go_digits (x : N) : forall s,
  exists ds,
    list_ascii_of_string (pretty_N_go x s) = ds ++ list_ascii_of_string s /\
    forallb isdigit ds = true /\
    ((0 < x)%N -> ds <> []) /\
    foldl (fun a c => 10 * a + digit_value c) 0 ds = Z.of_N x.
Proof.
  induction (N.lt_wf_0 x) as [x _ IH]. intros s.
  destruct (N.eq_dec x 0%N) as [->|Hx].
  - exists []. rewrite pretty_N_go_0.
    split; [reflexivity|]. split; [reflexivity|]. split; [lia|reflexivity].
  - rewrite pretty_N_go_step by lia.
    destruct (IH (x `div` 10)%N) with (s := String (pretty_N_char (x `mod` 10)) s)
      as (ds & Hds & Hall & _ & Hval); [apply N.div_lt; lia|].
    destruct (pretty_N_char_digit (x `mod` 10)%N) as [Hdigit Hvalue];
      [apply N.mod_lt; lia|].
    exists (ds ++ [pretty_N_char (x `mod` 10)]). split; [|split; [|split]].
    + rewrite Hds, <- app_assoc. reflexivity.
    + rewrite forallb_app, Hall. cbn. rewrite Hdigit. reflexivity.
    + intros _. destruct ds; discriminate.
    + rewrite foldl_app. cbn [foldl]. rewrite Hval, Hvalue.
      rewrite (N.div_mod x 10) at 3 by lia. lia.
Qed.

Lemma read_digits_all (ds : list ascii) : forall acc,
  forallb isdigit ds = true ->
  read_digits acc ds = (foldl (fun a c => 10 * a + digit_value c) acc ds, []).
Proof.
  induction ds as [|c ds IH]; intros acc Hall; [reflexivity|].
  cbn in Hall. apply andb_true_iff in Hall as [Hc Hall].
  cbn [read_digits foldl]. rewrite Hc. apply IH, Hall.
Qed.

Lemma digit_not_space c : isdigit c = true -> isspace c = false.
Proof.
  intros H. destruct (isspace c) eqn:E; [|reflexivity].
  rewrite (isspace_not_digit _ E) in H. discriminate.
Qed.

Lemma digit_not_sign c :
  isdigit c = true -> Ascii.eqb c minus_sign = false /\ Ascii.eqb c plus_sign = false.
Proof.
  destruct c as [[] [] [] [] [] [] [] []]; vm_compute; intros H;
    try discriminate; split; reflexivity.
Qed.

Lemma extract_int_digits (ds : list ascii) (negative : bool) :
  ds <> [] -> forallb isdigit ds = true ->
  extract_int ((if negative then [minus_sign] else []) ++ ds) =
    let m := foldl (fun a c => 10 * a + digit_value c) 0 ds in
    let v := if negative then - m else m in
    if (INT_MIN <=? v) && (v <=? INT_MAX) then Some (v, []) else None.
Proof.
  intros Hne Hall. destruct ds as [|c ds]; [congruence|].
  pose proof Hall as Hall'. cbn in Hall'. apply andb_true_iff in Hall' as [Hc _].
  pose proof (digit_not_space _ Hc) as Hspace.
  destruct (digit_not_sign _ Hc) as [Hminus Hplus].
  unfold extract_int. destruct negative.
  - change (skip_ws ([minus_sign] ++ c :: ds)) with (minus_sign :: c :: ds).
    change (read_sign (minus_sign :: c :: ds)) with (true, c :: ds).
    cbn [starts_with_digit]. rewrite Hc, (read_digits_all _ 0 Hall). reflexivity.
  - cbn [app skip_ws]. rewrite Hspace. cbn [read_sign]. rewrite Hminus, Hplus.
    cbn [starts_with_digit]. rewrite Hc, (read_digits_all _ 0 Hall). reflexivity.
Qed.

Lemma pretty_positive_digits (p : positive) :
  exists ds,
    list_ascii_of_string (pretty p) = ds /\ ds <> [] /\ forallb isdigit ds = true /\
    foldl (fun a c => 10 * a + digit_value c) 0 ds = Z.pos p.
Proof.
  unfold pretty, pretty_positive, pretty, pretty_N.
  destruct (decide (N.pos p = 0%N)) as [|_]; [discriminate|].
  destruct (pretty_N_go_digits (N.pos p) EmptyString) as (ds & Hds & Hall & Hne & Hval).
  exists ds. rewrite Hds, app_nil_r. repeat split; auto. apply Hne. lia.
Qed.

Lemma extract_int_pretty (x : Z) :
  is_int x -> extract_int (list_ascii_of_string (pretty x)) = Some (x, []).
Proof.
  intros Hx. destruct x as [|p|p].
  - reflexivity.
  - destruct (pretty_positive_digits p) as (ds & Hds & Hne & Hall & Hval).
    change (pretty (Z.pos p)) with (pretty p). rewrite Hds.
    rewrite (extract_int_digits ds false Hne Hall : extract_int ds = _). cbv zeta. rewrite Hval.
    destruct (Z.leb_spec INT_MIN (Z.pos p)); [|int_lia].
    destruct (Z.leb_spec (Z.pos p) INT_MAX); [reflexivity|int_lia].
  - destruct (pretty_positive_digits p) as (ds & Hds & Hne & Hall & Hval).
    change (pretty (Z.neg p)) with ("-" +:+ pretty p).
    rewrite list_ascii_of_string_app, Hds.
    change (list_ascii_of_string "-" ++ ds) with (minus_sign :: ds).
    rewrite (extract_int_digits ds true Hne Hall : extract_int (minus_sign :: ds) = _).
    cbv zeta. rewrite Hval.
    change (- Z.pos p) with (Z.neg p).
    destruct (Z.leb_spec INT_MIN (Z.neg p)); [|int_lia].
    destruct (Z.leb_spec (Z.neg p) INT_MAX); [reflexivity|int_lia].
Qed.

Lemma pretty_token_start (x : Z) : token_start (list_ascii_of_string (pretty x)).
Proof.
  destruct x as [|p|p]; [reflexivity| |reflexivity].
  destruct (pretty_positive_digits p) as (ds & Hds & Hne & Hall & _).
  change (pretty (Z.pos p)) with (pretty p). rewrite Hds.
  destruct ds as [|c ds]; [congruence|]. cbn in Hall.
  apply andb_true_iff in Hall as [Hc _]. apply digit_not_space, Hc.
Qed.

Lemma read_numbers_blank fuel (s : list ascii) :
  read_numbers fuel (" "%char :: s) = read_numbers fuel s.
Proof.
  rewrite !read_numbers_unfold.
  rewrite <- (extract_int_skip_ws (" "%char :: s)), <- (extract_int_skip_ws s).
  reflexivity.
Qed.

Lemma read_numbers_print (data : vec) : forall fuel,
  Forall is_int data -> (length data <= fuel)%nat ->
  read_numbers fuel (list_ascii_of_string (print_numbers data)) = Ok data.
Proof.
  induction data as [|x xs IH]; intros fuel Hint Hfuel.
  - rewrite read_numbers_unfold. reflexivity.
  - apply Forall_cons in Hint as [Hx Hxs].
    rewrite print_numbers_cons, !list_ascii_of_string_app.
    rewrite read_numbers_unfold.
    rewrite extract_int_app; [|apply pretty_token_start|reflexivity].
    rewrite (extract_int_pretty x Hx).
    destruct fuel as [|fuel]; [simpl in Hfuel; lia|].
    cbn [app list_ascii_of_string]. rewrite read_numbers_blank.
    rewrite IH by (auto; simpl in Hfuel; lia). reflexivity.
Qed.

Lemma print_numbers_length (data : vec) :
  (length data <= length (list_ascii_of_string (print_numbers data)))%nat.
Proof.
  induction data as [|x xs IH]; [simpl; lia|].
  rewrite print_numbers_cons, !list_ascii_of_string_app, !length_app.
  cbn [list_ascii_of_string length]. lia.
Qed.

Lemma read_numbers_print_line (data : vec) :
  Forall is_int data ->
  read_numbers (length (list_ascii_of_string (print_numbers data)))
               (list_ascii_of_string (print_numbers data)) = Ok data.
Proof.
  intros Hint. apply read_numbers_print; [exact Hint|apply print_numbers_length].
Qed.

(** X19.  The numbers line that [main] and [SortCommand::execute] print
    reads back as the numbers printed: parsing the text written for a
    vector of [int]s gives that vector. *)
Theorem print_parse_round_trip (data : vec) :
  Forall is_int data -> parse_line (print_numbers data) = Ok data.
Proof. intros Hint. unfold parse_line. cbv zeta. apply read_numbers_print_line, Hint. Qed.

Lemma print_parse_round_trip_witness :
  parse_line (print_numbers [-2147483648; 0; 42; 2147483647])
  = Ok [-2147483648; 0; 42; 2147483647].
Proof.
  apply print_parse_round_trip.
  repeat constructor; vm_compute; discriminate.
Defined.

(** X20.  A run of [main] on the numbers line of an earlier run (a line
    of at most [INT_MAX] characters) prints the same numbers again, for
    either selector. *)
Theorem main_on_own_output (line : string) (duration duration' : Z) :
  Z.of_nat (String.length line) <= INT_MAX ->
  exists data sorted,
    main line 1 duration = Ok (Outcome (report sorted duration) 0 [(Bubble, data)]) /\
    main (print_numbers sorted) 1 duration'
      = Ok (Outcome (report sorted duration') 0 [(Bubble, sorted)]) /\
    main (print_numbers sorted) 2 duration'
      = Ok (Outcome (report sorted duration') 0 [(Quick, sorted)]).
Proof.
  intros Hline. destruct (parse_line_total line) as [data Hparse].
  destruct (parse_line_bound line data Hparse) as [Hint Hlen].
  assert (Hsize : size data <= INT_MAX) by (unfold size; lia).
  assert (Hsize' : size (std_sort data) <= INT_MAX) by (rewrite size_std_sort; exact Hsize).
  exists data, (std_sort data). unfold main, parse_line at 2 3. cbv zeta.
  rewrite Hparse, read_numbers_print_line
    by (rewrite (std_sort_perm data); exact Hint).
  cbn [mbind result_bind Z.eqb Pos.eqb].
  rewrite !bubble_sort_std by (apply int_size_wf; assumption).
  rewrite quick_sort_std by exact Hsize'.
  rewrite std_sort_idem. repeat split.
Qed.

Lemma main_on_own_output_witness :
  exists data sorted,
    main "3 -1 2" 1 15 = Ok (Outcome (report sorted 15) 0 [(Bubble, data)]) /\
    main (print_numbers sorted) 2 20 = Ok (Outcome (report sorted 20) 0 [(Quick, sorted)]).
Proof.
  destruct (main_on_own_output "3 -1 2" 15 20) as (data & sorted & Hfirst & _ & Hsecond).
  - vm_compute. discriminate.
  - exists data, sorted. split; [exact Hfirst|exact Hsecond].
Defined.
